(** * read_until: the channel-keyed read cache and the stream coordinator

    A shallow embedding of [read_until/read_until.py]: the class [ReadCache]
    (an ordered, keyed queue of bounded size with loss accounting) and the
    parts of the class [ReadUntil] that filter inbound chunks and produce the
    outbound request stream.

    Python integers are unbounded, hence [Z].  An [OrderedDict] is an
    association list kept in insertion order, oldest entry first.  A method
    that runs under [with self.lock] is one atomic state transformer.  A
    Python exception is an explicit result, returned together with the state
    the object is left in. *)

From Stdlib Require Import ZArith QArith Lia Lqa.
From stdpp Require Import base list gmap strings pretty.

Local Open Scope Z_scope.

(** ** Exceptions and results *)

Inductive exn : Type :=
| KeyError
| AttributeError
| ValueError.

Inductive result (A : Type) : Type :=
| Ok (a : A)
| Raise (e : exn).

Arguments Ok {A} a.
Arguments Raise {A} e.

Definition is_ok {A : Type} (r : result A) : bool :=
  match r with Ok _ => true | Raise _ => false end.

(** ** Read chunks

    [ReadData] is the message of the sequencer's interface that carries one
    chunk; these are the fields the client reads. *)

Record ReadData : Type := mkReadData {
  read_id : string;
  number : Z;
  chunk_start_sample : Z;
  raw_data : list Byte.byte;
  chunk_classifications : list Z
}.

(** ** collections.OrderedDict, keyed by channel *)

Module OrderedDict.
Section ordered_dict.
Context {V : Type}.

(** Entries in insertion order, the oldest first. *)
Definition t : Type := list (Z * V).

Definition keys (d : t) : list Z := fst <$> d.

(** [key in d] *)
Definition contains (key : Z) (d : t) : bool :=
  existsb (fun kv => fst kv =? key) d.

(** [d[key]]; [None] stands for KeyError. *)
Fixpoint getitem (key : Z) (d : t) : option V :=
  match d with
  | [] => None
  | (k, v) :: d' => if k =? key then Some v else getitem key d'
  end.

(** [del d[key]]; [None] stands for KeyError. *)
Fixpoint delitem (key : Z) (d : t) : option t :=
  match d with
  | [] => None
  | (k, v) :: d' =>
      if k =? key then Some d'
      else match delitem key d' with
           | Some r => Some ((k, v) :: r)
           | None => None
           end
  end.

(** [d[key] = value]: a resident key keeps its position, a new key goes
    to the newest end. *)
Fixpoint setitem (key : Z) (value : V) (d : t) : t :=
  match d with
  | [] => [(key, value)]
  | (k, v) :: d' =>
      if k =? key then (k, value) :: d' else (k, v) :: setitem key value d'
  end.

(** The newest entry and the entries before it. *)
Fixpoint pop_newest (d : t) : option ((Z * V) * t) :=
  match d with
  | [] => None
  | kv :: d' =>
      match pop_newest d' with
      | None => Some (kv, [])
      | Some (y, r) => Some (y, kv :: r)
      end
  end.

(** [d.popitem(last=last)]; [None] stands for KeyError (empty dict). *)
Definition popitem (last : bool) (d : t) : option ((Z * V) * t) :=
  if last then pop_newest d
  else match d with
       | [] => None
       | kv :: d' => Some (kv, d')
       end.

End ordered_dict.
Arguments t V : clear implicits.
End OrderedDict.

(** ** class ReadCache *)

Module ReadCache.

Record state : Type := mkState {
  size : Z;
  dict : OrderedDict.t ReadData;
  missed : Z;
  replaced : Z
}.

(** A method: the result and the state it leaves. *)
Definition M (A : Type) : Type := state -> result A * state.

(** [ReadCache(size)] *)
Definition __init__ (size : Z) : result state :=
  if size <? 1 then Raise AttributeError
  else Ok {| size := size; dict := []; missed := 0; replaced := 0 |}.

(** [self[key]] *)
Definition __getitem__ (key : Z) : M ReadData := fun st =>
  match OrderedDict.getitem key (dict st) with
  | Some v => (Ok v, st)
  | None => (Raise KeyError, st)
  end.

(** The [while len(self.dict) >= self.size] loop of [__setitem__], by
    recursion on the dict it pops from the oldest end: the head of the
    list is the entry that [popitem(last=False)] returns.  The loop gives
    the flag [counted], or KeyError when [popitem] meets an empty dict,
    and the dict and counters it leaves. *)
Fixpoint evict (sz key : Z) (value : ReadData) (d : OrderedDict.t ReadData)
    (counted : bool) (m r : Z) {struct d}
    : result bool * (OrderedDict.t ReadData * Z * Z) :=
  if Z.of_nat (length d) >=? sz then
    match d with
    | [] => (Raise KeyError, ([], m, r))
    | (k, v) :: d' =>
        if (k =? key) && (number v =? number value)
        then evict sz key value d' true m (r + 1)
        else evict sz key value d' true (m + 1) r
    end
  else (Ok counted, (d, m, r)).

(** [self[key] = value] *)
Definition __setitem__ (key : Z) (value : ReadData) : M unit := fun st =>
  match evict (size st) key value (dict st) false (missed st) (replaced st) with
  | (Raise e, (d, m, r)) =>
      (Raise e, {| size := size st; dict := d; missed := m; replaced := r |})
  | (Ok counted, (d, m, r)) =>
      if OrderedDict.contains key d then
        match OrderedDict.getitem key d, OrderedDict.delitem key d with
        | Some old, Some d' =>
            let '(m', r') :=
              if negb counted then
                if number old =? number value then (m, r + 1) else (m + 1, r)
              else (m, r) in
            (Ok tt, {| size := size st;
                       dict := OrderedDict.setitem key value d';
                       missed := m'; replaced := r' |})
        | _, _ =>
            (Raise KeyError,
             {| size := size st; dict := d; missed := m; replaced := r |})
        end
      else
        (Ok tt, {| size := size st;
                   dict := OrderedDict.setitem key value d;
                   missed := m; replaced := r |})
  end.

(** [del self[key]] *)
Definition __delitem__ (key : Z) : M unit := fun st =>
  match OrderedDict.delitem key (dict st) with
  | Some d' =>
      (Ok tt, {| size := size st; dict := d';
                 missed := missed st; replaced := replaced st |})
  | None => (Raise KeyError, st)
  end.

(** [len(self)] *)
Definition __len__ (st : state) : Z := Z.of_nat (length (dict st)).

(** [self.popitem(last)] *)
Definition popitem (last : bool) : M (Z * ReadData) := fun st =>
  match OrderedDict.popitem last (dict st) with
  | Some (item, d') =>
      (Ok item, {| size := size st; dict := d';
                   missed := missed st; replaced := replaced st |})
  | None => (Raise KeyError, st)
  end.

(** The [for _ in range(items)] loop of [popitems]: a KeyError of the
    inner [popitem] is caught and the iteration goes on. *)
Fixpoint popitems_loop (n : nat) (last : bool) (d : OrderedDict.t ReadData)
    (data : list (Z * ReadData))
    : list (Z * ReadData) * OrderedDict.t ReadData :=
  match n with
  | O => (data, d)
  | S n' =>
      match OrderedDict.popitem last d with
      | None => popitems_loop n' last d data
      | Some (item, d') => popitems_loop n' last d' (data ++ [item])
      end
  end.

(** [self.popitems(items, last)] *)
Definition popitems (items : Z) (last : bool) : M (list (Z * ReadData)) :=
  fun st =>
    let '(data, d') := popitems_loop (Z.to_nat items) last (dict st) [] in
    (Ok data, {| size := size st; dict := d';
                 missed := missed st; replaced := replaced st |}).

End ReadCache.

(** Sample chunks. *)
Definition chunk (n : Z) : ReadData :=
  {| read_id := ""; number := n; chunk_start_sample := 0;
     raw_data := []; chunk_classifications := [] |}.


(** ** Messages of the outbound stream *)

Inductive action_kind : Type :=
| StopFurtherData
| UnblockAction.

Record Action : Type := mkAction {
  action_id : string;
  action_channel : Z;
  action_number : Z;
  action_kind_of : action_kind
}.

Inductive raw_data_type_t : Type :=
| CALIBRATED
| UNCALIBRATED.

Record StreamSetup : Type := mkStreamSetup {
  first_channel : Z;
  last_channel : Z;
  raw_data_type : raw_data_type_t;
  sample_minimum_chunk_size : Z
}.

Inductive GetLiveReadsRequest : Type :=
| setup (s : StreamSetup)
| actions (l : list Action).

(** What the runner does that its environment can see: a request it
    yields, a log record, a sleep. *)
Inductive log_level : Type := DEBUG | INFO | WARNING.

Inductive log_message : Type :=
| ReducingMinChunkSize (n : Z)
| SendingInit
| RunningFor (run_time : Q)
| SendingActions (n : nat)
| StreamFinished.

Inductive event : Type :=
| Yield (req : GetLiveReadsRequest)
| Log (lvl : log_level) (msg : log_message)
| Sleep (d : Q).

(** [x < y] on clock readings. *)
Definition Qltb (x y : Q) : bool := negb (Qle_bool y x).

(** ** class ReadUntil *)

Module ReadUntil.

(** The maximum allowed minimum read chunk size. *)
Definition ALLOWED_MIN_CHUNK_SIZE : Z := 4000.

Definition allowed_classes : gset string :=
  {[ "strand"; "strand1"; "adapter"; "unavailable" ]}.

(** The loop of [__init__] that collects the strand-like class codes of
    the classification map [self.read_classes]. *)
Definition collect_strand_classes (read_classes : gmap Z string) : gset Z :=
  map_fold
    (fun key value (acc : gset Z) =>
       if decide (value ∈ allowed_classes) then {[ key ]} ∪ acc else acc)
    ∅ read_classes.

Record client : Type := mkClient {
  cache_size : Z;
  filter_strands : bool;
  one_chunk : bool;
  read_classes : gmap Z string;
  strand_classes : gset Z;
  action_queue : list Action;
  data_queue : ReadCache.state;
  uuids_drawn : nat
}.

(** [ReadUntil(cache_size, filter_strands, one_chunk)]; the
    classification map is the answer of the sequencer's JSON interface,
    its keys already converted to integers. *)
Definition __init__ (read_classes : gmap Z string) (cache_size : Z)
    (filter_strands one_chunk : bool) : result client :=
  match ReadCache.__init__ cache_size with
  | Raise e => Raise e
  | Ok q =>
      Ok {| cache_size := cache_size;
            filter_strands := filter_strands;
            one_chunk := one_chunk;
            read_classes := read_classes;
            strand_classes := collect_strand_classes read_classes;
            action_queue := [];
            data_queue := q;
            uuids_drawn := 0 |}
  end.

Definition queue_length (c : client) : Z := ReadCache.__len__ (data_queue c).
Definition missed_reads (c : client) : Z := ReadCache.missed (data_queue c).
Definition missed_chunks (c : client) : Z := ReadCache.replaced (data_queue c).

Definition with_data_queue (c : client) (q : ReadCache.state) : client :=
  {| cache_size := cache_size c; filter_strands := filter_strands c;
     one_chunk := one_chunk c; read_classes := read_classes c;
     strand_classes := strand_classes c; action_queue := action_queue c;
     data_queue := q; uuids_drawn := uuids_drawn c |}.

(** [self.get_read_chunks(batch_size, last)] *)
Definition get_read_chunks (batch_size : Z) (last : bool) (c : client)
    : result (list (Z * ReadData)) * client :=
  let '(r, q) := ReadCache.popitems batch_size true (data_queue c) in
  (r, with_data_queue c q).

Section actions.
(** [uuid4 n] is the identifier that the [n]-th call of [uuid.uuid4()]
    of the session returns. *)
Variable uuid4 : nat -> string.

(** [self._put_action(read_channel, read_number, action)], for a channel
    and a read number that the constructor of the Action message accepts,
    as those of an inbound chunk are; [Wire._put_action] below has the
    constructor's check. *)
Definition _put_action (read_channel read_number : Z) (action : string)
    (c : client) : result unit * client :=
  let fresh := uuid4 (uuids_drawn c) in
  let drawn :=
    {| cache_size := cache_size c; filter_strands := filter_strands c;
       one_chunk := one_chunk c; read_classes := read_classes c;
       strand_classes := strand_classes c; action_queue := action_queue c;
       data_queue := data_queue c; uuids_drawn := S (uuids_drawn c) |} in
  let enqueue (k : action_kind) :=
    (Ok tt,
     {| cache_size := cache_size c; filter_strands := filter_strands c;
        one_chunk := one_chunk c; read_classes := read_classes c;
        strand_classes := strand_classes c;
        action_queue :=
          action_queue c ++ [mkAction fresh read_channel read_number k];
        data_queue := data_queue c; uuids_drawn := S (uuids_drawn c) |}) in
  if String.eqb action "stop_further_data" then enqueue StopFurtherData
  else if String.eqb action "unblock" then enqueue UnblockAction
  else (Raise ValueError, drawn).

Definition unblock_read (read_channel read_number : Z) (c : client) :=
  _put_action read_channel read_number "unblock" c.

Definition stop_receiving_read (read_channel read_number : Z) (c : client) :=
  _put_action read_channel read_number "stop_further_data" c.

(** [any([x in self.strand_classes for x in read.chunk_classifications])] *)
Definition strand_like (c : client) (read : ReadData) : bool :=
  existsb (fun x => bool_decide (x ∈ strand_classes c))
          (chunk_classifications read).

(** The chunk is stored: [self.data_queue[read_channel] = read]. *)
Definition store (read_channel : Z) (read : ReadData) (c : client)
    : result unit * client :=
  let '(r, q) := ReadCache.__setitem__ read_channel read (data_queue c) in
  (r, with_data_queue c q).

(** The body of [for read_channel in reads_chunk.channels] of
    [_process_reads], for one channel and its chunk: the stop request
    of the one-chunk policy, then the strand filter and the cache.  The
    telemetry sums of the loop do not reach the cache and are left out. *)
Definition process_read (read_channel : Z) (read : ReadData) (c : client)
    : result unit * client :=
  let '(r1, c1) :=
    if one_chunk c then stop_receiving_read read_channel (number read) c
    else (Ok tt, c) in
  match r1 with
  | Raise e => (Raise e, c1)
  | Ok _ =>
      if negb (filter_strands c1) || strand_like c1 read
      then store read_channel read c1
      else (Ok tt, c1)
  end.

(** The channels of one inbound message, in the order the loop meets
    them; an exception ends the loop. *)
Fixpoint process_channels (channels : list (Z * ReadData)) (c : client)
    : result unit * client :=
  match channels with
  | [] => (Ok tt, c)
  | (read_channel, read) :: rest =>
      match process_read read_channel read c with
      | (Raise e, c') => (Raise e, c')
      | (Ok _, c') => process_channels rest c'
      end
  end.
End actions.

(** *** The outbound runner

    [_runner] is a generator.  Its environment is what it reads from the
    outside: the clock readings of [time.time()], and the requests that
    other threads put on the action queue.  One [iteration] holds what one
    pass of the [while] loop reads: the clock at its start, the actions
    that reached the queue before it drains, the clock after it. *)

Record iteration : Type := mkIteration {
  t0_reading : Q;
  arrivals : list Action;
  t1_reading : Q
}.

Record run : Type := mkRun {
  events : list event;
  queue_left : list Action;
  finished : bool
}.

(** The [while t0 < timeout_pt] loop.  [finished] is false when the
    observation [env] ends while the loop is still running. *)
Fixpoint runner_loop (timeout_pt : Q) (action_batch : Z) (action_throttle : Q)
    (t0 : Q) (queue : list Action) (env : list iteration) : run :=
  if Qltb t0 timeout_pt then
    match env with
    | [] => {| events := []; queue_left := queue; finished := false |}
    | it :: env' =>
        let t0' := t0_reading it in
        let queue1 := queue ++ arrivals it in
        let acts := take (Z.to_nat action_batch) queue1 in
        let queue2 := drop (Z.to_nat action_batch) queue1 in
        let n_actions := length acts in
        let sent :=
          if (0 <? n_actions)%nat
          then [Log DEBUG (SendingActions n_actions); Yield (actions acts)]
          else [] in
        let t1 := t1_reading it in
        let slept :=
          if Qltb t1 (t0' + action_throttle)
          then [Sleep (action_throttle + t0' - t1)]
          else [] in
        let rest := runner_loop timeout_pt action_batch action_throttle
                                t0' queue2 env' in
        {| events := sent ++ slept ++ events rest;
           queue_left := queue_left rest;
           finished := finished rest |}
    end
  else {| events := [Log INFO StreamFinished];
          queue_left := queue; finished := true |}.

(** [self._runner(run_time, first_channel, last_channel, min_chunk_size,
    action_batch, action_throttle)]; [t_start] and [t_init] are the clock
    readings before the loop.  This is the run for setup fields that the
    constructor of the setup message accepts, with the deadline as the
    exact sum; [Wire._runner] below has the constructor's check and the
    floating-point sum. *)
Definition _runner (run_time : Q) (first_channel last_channel min_chunk_size
    action_batch : Z) (action_throttle : Q)
    (t_start t_init : Q) (queue : list Action) (env : list iteration) : run :=
  let timeout_pt := (t_start + run_time)%Q in
  let warned :=
    if min_chunk_size >? ALLOWED_MIN_CHUNK_SIZE
    then [Log WARNING (ReducingMinChunkSize ALLOWED_MIN_CHUNK_SIZE)]
    else [] in
  let min_chunk_size' :=
    if min_chunk_size >? ALLOWED_MIN_CHUNK_SIZE
    then ALLOWED_MIN_CHUNK_SIZE else min_chunk_size in
  let init :=
    [Log INFO SendingInit;
     Yield (setup {| first_channel := first_channel;
                     last_channel := last_channel;
                     raw_data_type := CALIBRATED;
                     sample_minimum_chunk_size := min_chunk_size' |});
     Log INFO (RunningFor run_time)] in
  let rest := runner_loop timeout_pt action_batch action_throttle
                          t_init queue env in
  {| events := warned ++ init ++ events rest;
     queue_left := queue_left rest;
     finished := finished rest |}.

(** The requests of a run, in the order they were yielded. *)
Fixpoint yielded (evs : list event) : list GetLiveReadsRequest :=
  match evs with
  | [] => []
  | Yield req :: evs' => req :: yielded evs'
  | _ :: evs' => yielded evs'
  end.

End ReadUntil.

(** ** Sequences of cache operations and what an observer counts *)

Inductive op : Type :=
| Put (key : Z) (value : ReadData)
| PopItem (last : bool)
| PopItems (items : Z) (last : bool).

Record observation : Type := mkObservation {
  cache : ReadCache.state;
  delivered : list (Z * ReadData);
  total_puts : nat
}.

Definition observe (c : ReadCache.state) : observation :=
  {| cache := c; delivered := []; total_puts := 0 |}.

(** One operation; an exception leaves the cache object in use. *)
Definition step (o : observation) (x : op) : observation :=
  match x with
  | Put key value =>
      match ReadCache.__setitem__ key value (cache o) with
      | (Ok _, c) =>
          {| cache := c; delivered := delivered o;
             total_puts := S (total_puts o) |}
      | (Raise _, c) =>
          {| cache := c; delivered := delivered o;
             total_puts := total_puts o |}
      end
  | PopItem last =>
      match ReadCache.popitem last (cache o) with
      | (Ok item, c) =>
          {| cache := c; delivered := delivered o ++ [item];
             total_puts := total_puts o |}
      | (Raise _, c) =>
          {| cache := c; delivered := delivered o;
             total_puts := total_puts o |}
      end
  | PopItems items last =>
      match ReadCache.popitems items last (cache o) with
      | (Ok data, c) =>
          {| cache := c; delivered := delivered o ++ data;
             total_puts := total_puts o |}
      | (Raise _, c) =>
          {| cache := c; delivered := delivered o;
             total_puts := total_puts o |}
      end
  end.

Definition run_ops (ops : list op) (o : observation) : observation :=
  fold_left step ops o.

(** The chunks accounted for: missed, replaced, delivered and resident. *)
Definition accounted (o : observation) : Z :=
  ReadCache.missed (cache o) + ReadCache.replaced (cache o)
  + Z.of_nat (length (delivered o)) + ReadCache.__len__ (cache o).

(** The cache invariant: at most [size] entries, no channel twice. *)
Definition cache_inv (c : ReadCache.state) : Prop :=
  0 <= ReadCache.__len__ c <= ReadCache.size c
  /\ NoDup (OrderedDict.keys (ReadCache.dict c)).

(** ** Channels of a sequence of operations *)

(** The channels that the puts of a sequence write to. *)
Fixpoint put_keys (ops : list op) : list Z :=
  match ops with
  | [] => []
  | Put key _ :: ops' => key :: put_keys ops'
  | _ :: ops' => put_keys ops'
  end.

(** What a sequence of operations keeps when all its puts use channels
    of [K]: the capacity, distinct keys, keys within [K], and exact
    accounting. *)
Definition roomy (N : Z) (K : list Z) (o : observation) : Prop :=
  ReadCache.size (cache o) = N
  /\ NoDup (OrderedDict.keys (ReadCache.dict (cache o)))
  /\ (forall k, k ∈ OrderedDict.keys (ReadCache.dict (cache o)) -> k ∈ K)
  /\ accounted o = Z.of_nat (total_puts o).

(** ** Calls on a client, in sequence *)

Inductive client_op : Type :=
| UnblockRead (read_channel read_number : Z)
| StopReceivingRead (read_channel read_number : Z)
| PutAction (read_channel read_number : Z) (action : string)
| ProcessChannels (channels : list (Z * ReadData))
| GetReadChunks (batch_size : Z) (last : bool).

(** One call; an exception leaves the client in use. *)
Definition client_step (uuid4 : nat -> string) (c : ReadUntil.client)
    (x : client_op) : ReadUntil.client :=
  match x with
  | UnblockRead ch n => snd (ReadUntil.unblock_read uuid4 ch n c)
  | StopReceivingRead ch n => snd (ReadUntil.stop_receiving_read uuid4 ch n c)
  | PutAction ch n action => snd (ReadUntil._put_action uuid4 ch n action c)
  | ProcessChannels channels => snd (ReadUntil.process_channels uuid4 channels c)
  | GetReadChunks batch_size last =>
      snd (ReadUntil.get_read_chunks batch_size last c)
  end.

Definition client_run (uuid4 : nat -> string) (ops : list client_op)
    (c : ReadUntil.client) : ReadUntil.client :=
  fold_left (client_step uuid4) ops c.

(** Every queued action carries an identifier that was drawn, and no two
    carry the same. *)
Definition ids_issued (uuid4 : nat -> string) (c : ReadUntil.client) : Prop :=
  Forall (fun a => exists n, (n < ReadUntil.uuids_drawn c)%nat
                             /\ action_id a = uuid4 n)
         (ReadUntil.action_queue c)
  /\ NoDup (action_id <$> ReadUntil.action_queue c).

(** The stop requests that the one-chunk policy queues for the chunks of
    one inbound message, the first of them with the [drawn]-th
    identifier. *)
Definition stop_requests (uuid4 : nat -> string) (drawn : nat)
    (channels : list (Z * ReadData)) : list Action :=
  imap (fun i kv =>
          mkAction (uuid4 (drawn + i)%nat) (fst kv) (number (snd kv))
                   StopFurtherData)
       channels.

(** ** What a run of the runner sent *)

Definition request_actions (req : GetLiveReadsRequest) : list Action :=
  match req with
  | setup _ => []
  | actions l => l
  end.

(** The actions of all yielded requests, in the order they were sent. *)
Definition sent_actions (evs : list event) : list Action :=
  concat (request_actions <$> ReadUntil.yielded evs).

(** The number of passes of the runner's [while] loop within the
    observation [env]: a pass starts when the last clock reading is before
    the deadline. *)
Fixpoint passes (timeout_pt t0 : Q) (env : list ReadUntil.iteration) : nat :=
  if Qltb t0 timeout_pt then
    match env with
    | [] => O
    | it :: env' => S (passes timeout_pt (ReadUntil.t0_reading it) env')
    end
  else O.

(** ** [ReadUntil._process_reads], with its telemetry

    The inbound loop with the sums it keeps for the interval report.  What
    the loop reads from outside travels with each message: the acquisition
    progress it asks for before the chunks, and the clock it reads after
    them.  The report is a record of the values that the log line is
    formatted from; the two quotients are exact rationals. *)

Module ProcessReads.

Record ActionResponse : Type := mkActionResponse {
  response_action_id : string;
  response : Z
}.

Record reads_chunk : Type := mkReadsChunk {
  action_reponses : list ActionResponse;
  channels : list (Z * ReadData);
  acquired : Z;
  now : Q
}.

Record telemetry : Type := mkTelemetry {
  response_counter : gmap Z Z;
  unique_reads : gset string;
  read_count : Z;
  samples_behind : Z;
  raw_data_bytes : Z;
  last_msg_time : Q
}.

Record interval_update : Type := mkIntervalUpdate {
  read_sections : Z;
  unique_reads_ever : nat;
  average_samples_behind : Q;
  raw_data_mb : Q;
  reads_in_queue : Z;
  reads_missed : Z;
  chunks_replaced : Z;
  response_summary : gmap Z Z
}.

Inductive loop_exn : Type :=
| Raised (e : exn)
| ZeroDivisionError.

Inductive loop_result : Type :=
| Done
| Failed (e : loop_exn).

(** [response_counter[response.response] += 1] on a [Counter]. *)
Definition count_response (counter : gmap Z Z) (resp : ActionResponse)
    : gmap Z Z :=
  <[ response resp := default 0 (counter !! response resp) + 1 ]> counter.

(** An exception of the cache, as the loop passes it on. *)
Definition lift_result (r : result unit) : loop_result :=
  match r with
  | Ok _ => Done
  | Raise e => Failed (Raised e)
  end.

Section loop.
Variable uuid4 : nat -> string.

(** The body of [for read_channel in reads_chunk.channels]. *)
Definition channel_body (progress_acquired : Z) (read_channel : Z)
    (read : ReadData) (c : ReadUntil.client) (t : telemetry)
    : loop_result * (ReadUntil.client * telemetry) :=
  let t1 := {| response_counter := response_counter t;
               unique_reads := unique_reads t;
               read_count := read_count t + 1;
               samples_behind := samples_behind t;
               raw_data_bytes := raw_data_bytes t;
               last_msg_time := last_msg_time t |} in
  let '(r1, c1) :=
    if ReadUntil.one_chunk c
    then ReadUntil.stop_receiving_read uuid4 read_channel (number read) c
    else (Ok tt, c) in
  match r1 with
  | Raise e => (Failed (Raised e), (c1, t1))
  | Ok _ =>
      let t2 := {| response_counter := response_counter t;
                   unique_reads := {[ read_id read ]} ∪ unique_reads t;
                   read_count := read_count t + 1;
                   samples_behind :=
                     samples_behind t
                     + (progress_acquired - chunk_start_sample read);
                   raw_data_bytes :=
                     raw_data_bytes t + Z.of_nat (length (raw_data read));
                   last_msg_time := last_msg_time t |} in
      if negb (ReadUntil.filter_strands c1) || ReadUntil.strand_like c1 read
      then match ReadUntil.store read_channel read c1 with
           | (Ok _, c2) => (Done, (c2, t2))
           | (Raise e, c2) => (Failed (Raised e), (c2, t2))
           end
      else (Done, (c1, t2))
  end.

Fixpoint channels_loop (progress_acquired : Z) (chs : list (Z * ReadData))
    (c : ReadUntil.client) (t : telemetry)
    : loop_result * (ReadUntil.client * telemetry) :=
  match chs with
  | [] => (Done, (c, t))
  | (read_channel, read) :: rest =>
      match channel_body progress_acquired read_channel read c t with
      | (Done, (c', t')) => channels_loop progress_acquired rest c' t'
      | failed => failed
      end
  end.

(** The values of the interval report, or ZeroDivisionError when no chunk
    was counted since the last report. *)
Definition interval_report (c : ReadUntil.client) (t : telemetry)
    : option interval_update :=
  if read_count t =? 0 then None
  else Some {| read_sections := read_count t;
               unique_reads_ever := size (unique_reads t);
               average_samples_behind :=
                 (inject_Z (samples_behind t) / inject_Z (read_count t))%Q;
               raw_data_mb :=
                 (inject_Z (raw_data_bytes t) / 1024 / 1024)%Q;
               reads_in_queue := ReadUntil.queue_length c;
               reads_missed := ReadUntil.missed_reads c;
               chunks_replaced := ReadUntil.missed_chunks c;
               response_summary := response_counter t |}.

(** The body of [for reads_chunk in reads]: the log records it emits come
    with the state it leaves. *)
Definition message_body (m : reads_chunk) (c : ReadUntil.client)
    (t : telemetry)
    : loop_result * (ReadUntil.client * telemetry) * list interval_update :=
  let t0 := {| response_counter :=
                 fold_left count_response (action_reponses m)
                           (response_counter t);
               unique_reads := unique_reads t;
               read_count := read_count t;
               samples_behind := samples_behind t;
               raw_data_bytes := raw_data_bytes t;
               last_msg_time := last_msg_time t |} in
  match channels_loop (acquired m) (channels m) c t0 with
  | (Failed e, (c', t')) => (Failed e, (c', t'), [])
  | (Done, (c', t')) =>
      if Qltb (last_msg_time t' + 1) (now m) then
        match interval_report c' t' with
        | None => (Failed ZeroDivisionError, (c', t'), [])
        | Some report =>
            (Done,
             (c', {| response_counter := response_counter t';
                     unique_reads := unique_reads t';
                     read_count := 0;
                     samples_behind := 0;
                     raw_data_bytes := 0;
                     last_msg_time := now m |}),
             [report])
        end
      else (Done, (c', t'), [])
  end.

Fixpoint messages_loop (reads : list reads_chunk) (c : ReadUntil.client)
    (t : telemetry)
    : loop_result * (ReadUntil.client * telemetry) * list interval_update :=
  match reads with
  | [] => (Done, (c, t), [])
  | m :: rest =>
      match message_body m c t with
      | (Done, (c', t'), reports) =>
          let '(r, ct, reports') := messages_loop rest c' t' in
          (r, ct, reports ++ reports')
      | failed => failed
      end
  end.

(** [self._process_reads(reads)]; [t_start] is the clock reading at its
    start. *)
Definition _process_reads (t_start : Q) (reads : list reads_chunk)
    (c : ReadUntil.client)
    : loop_result * (ReadUntil.client * telemetry) * list interval_update :=
  messages_loop reads c
    {| response_counter := ∅; unique_reads := ∅; read_count := 0;
       samples_behind := 0; raw_data_bytes := 0; last_msg_time := t_start |}.

End loop.
End ProcessReads.

(** ** The test server: [DataService.channel_data] and the response times

    [test/read_until_test_server.py] records, per channel, the chunks it
    sent and the actions it received, each with the clock reading of its
    arrival, and pairs them up to measure response times. *)

Module DataService.

(** What [find_response_times] reads of the message that an item holds:
    whether it is a [ReadData], and its fields [id] and [number]. *)
Record item_data : Type := mkItemData {
  is_read_data : bool;
  data_id : string;
  data_number : Z
}.

Record ChannelDataItem : Type := mkChannelDataItem {
  time : Q;
  data : item_data
}.

(** [self._add_channel_data(channel, data)]; [now] is the reading of
    [time.time()]. *)
Definition _add_channel_data (channel : Z) (d : item_data) (now : Q)
    (channel_data : OrderedDict.t (list ChannelDataItem))
    : OrderedDict.t (list ChannelDataItem) :=
  let channel_data1 :=
    if OrderedDict.contains channel channel_data then channel_data
    else OrderedDict.setitem channel [] channel_data in
  match OrderedDict.getitem channel channel_data1 with
  | Some items =>
      OrderedDict.setitem channel (items ++ [mkChannelDataItem now d])
                          channel_data1
  | None => channel_data1
  end.

Inductive outcome : Type :=
| Returned (response_times : list Q)
| AssertionError.

(** [matched]: the two items are of the same read. *)
Definition matched (start_item data_item : ChannelDataItem) : bool :=
  String.eqb (data_id (data start_item)) (data_id (data data_item))
  || (data_number (data start_item) =? data_number (data data_item)).

(** The loop over the items of one channel; [None] stands for the failed
    [assert response_time > 0]. *)
Fixpoint items_loop (items : list ChannelDataItem)
    (start_item : option ChannelDataItem) (response_times : list Q)
    (response_time : Q) : option (list Q * Q) :=
  match items with
  | [] => Some (response_times, response_time)
  | data_item :: rest =>
      match start_item with
      | Some s =>
          if is_read_data (data s) then
            if matched s data_item then
              let response_time' := (time data_item - time s)%Q in
              if Qltb 0 response_time'
              then items_loop rest None (response_times ++ [response_time'])
                              response_time'
              else None
            else items_loop rest None (response_times ++ [response_time])
                            response_time
          else items_loop rest None (response_times ++ [response_time])
                          response_time
      | None => items_loop rest (Some data_item) response_times response_time
      end
  end.

(** The loop over the channels, in the order of the dict. *)
Fixpoint channels_loop (channel_data : list (Z * list ChannelDataItem))
    (response_times : list Q) (response_time : Q) : outcome :=
  match channel_data with
  | [] => Returned response_times
  | (_, items) :: rest =>
      match items_loop items None response_times response_time with
      | Some (response_times', response_time') =>
          channels_loop rest response_times' response_time'
      | None => AssertionError
      end
  end.

(** [self.find_response_times()] *)
Definition find_response_times
    (channel_data : OrderedDict.t (list ChannelDataItem)) : outcome :=
  channels_loop channel_data [] 0%Q.

(** The items of a channel two by two: a sent item and the item after it;
    a last item without a partner is left out. *)
Fixpoint pair_up (items : list ChannelDataItem)
    : list (ChannelDataItem * ChannelDataItem) :=
  match items with
  | s :: r :: rest => (s, r) :: pair_up rest
  | _ => []
  end.

(** The loop of [find_response_times] over the pairs of one channel. *)
Fixpoint pairs_loop (pairs : list (ChannelDataItem * ChannelDataItem))
    (response_times : list Q) (response_time : Q) : option (list Q * Q) :=
  match pairs with
  | [] => Some (response_times, response_time)
  | (s, r) :: rest =>
      if is_read_data (data s) && matched s r then
        if Qltb 0 (time r - time s)
        then pairs_loop rest (response_times ++ [(time r - time s)%Q])
                        (time r - time s)
        else None
      else pairs_loop rest (response_times ++ [response_time]) response_time
  end.

(** A pair that makes the assertion fail: a read, matched, and answered
    no later than it was sent. *)
Definition failing_pair (p : ChannelDataItem * ChannelDataItem) : Prop :=
  is_read_data (data (fst p)) = true /\ matched (fst p) (snd p) = true
  /\ (time (snd p) <= time (fst p))%Q.

(** A pair as the server means it: a read, matched by the item after it,
    which came later. *)
Definition answered_pair (p : ChannelDataItem * ChannelDataItem) : Prop :=
  is_read_data (data (fst p)) = true /\ matched (fst p) (snd p) = true
  /\ (time (fst p) < time (snd p))%Q.

End DataService.

(** ** The messages as their constructors build them

    The message classes [GetLiveReadsRequest.StreamSetup] and
    [GetLiveReadsRequest.Action] belong to the sequencer's interface and
    are declared outside the source.  Their constructors raise ValueError
    for an integer outside the range of its field, and the clock readings
    and the run time are floating-point numbers, so that the deadline is
    the rounded sum.  Both are taken as parameters here: which field values
    a constructor accepts, and the floating-point sum.  [ReadUntil._runner]
    and [ReadUntil._put_action] above are the same methods for field values
    that the constructors accept and for an exact sum. *)

(** The ranges of the unsigned fields of the sequencer's interface:
    channels and read numbers are 32-bit, the chunk size is 64-bit. *)
Definition uint32_ok (x : Z) : bool := (0 <=? x) && (x <? 2 ^ 32).

Definition schema_action_ok (channel number : Z) : bool :=
  uint32_ok channel && uint32_ok number.


Module Wire.

Record run : Type := mkRun {
  events : list event;
  queue_left : list Action;
  finished : bool;
  raised : option exn
}.

Section schema.
(** [Action_ok channel number]: the constructor of [Action] accepts the
    two values. *)
Variable Action_ok : Z -> Z -> bool.
(** [StreamSetup_ok first_channel last_channel chunk_size]: the
    constructor of [StreamSetup] accepts the three values. *)
Variable StreamSetup_ok : Z -> Z -> Z -> bool.
(** [fadd x y]: the floating-point sum [x + y]. *)
Variable fadd : Q -> Q -> Q.
Variable uuid4 : nat -> string.

(** [self._put_action(read_channel, read_number, action)]: the identifier
    is drawn, the action name is tested, the [Action] is built, and only
    then the request is queued. *)
Definition _put_action (read_channel read_number : Z) (action : string)
    (c : ReadUntil.client) : result unit * ReadUntil.client :=
  let fresh := uuid4 (ReadUntil.uuids_drawn c) in
  let drawn :=
    ReadUntil.mkClient (ReadUntil.cache_size c) (ReadUntil.filter_strands c)
      (ReadUntil.one_chunk c) (ReadUntil.read_classes c)
      (ReadUntil.strand_classes c) (ReadUntil.action_queue c)
      (ReadUntil.data_queue c) (S (ReadUntil.uuids_drawn c)) in
  let build (k : action_kind) :=
    if Action_ok read_channel read_number then
      (Ok tt,
       ReadUntil.mkClient (ReadUntil.cache_size c) (ReadUntil.filter_strands c)
         (ReadUntil.one_chunk c) (ReadUntil.read_classes c)
         (ReadUntil.strand_classes c)
         (ReadUntil.action_queue c
          ++ [mkAction fresh read_channel read_number k])
         (ReadUntil.data_queue c) (S (ReadUntil.uuids_drawn c)))
    else (Raise ValueError, drawn) in
  if String.eqb action "stop_further_data" then build StopFurtherData
  else if String.eqb action "unblock" then build UnblockAction
  else (Raise ValueError, drawn).

Definition unblock_read (read_channel read_number : Z) (c : ReadUntil.client) :=
  _put_action read_channel read_number "unblock" c.

Definition stop_receiving_read (read_channel read_number : Z)
    (c : ReadUntil.client) :=
  _put_action read_channel read_number "stop_further_data" c.

(** [self._runner(...)]: the deadline is the floating-point sum; the
    warning and the first log line come before the setup message is built;
    when its constructor raises, the generator ends with that exception
    and has yielded nothing. *)
Definition _runner (run_time : Q) (first_channel last_channel min_chunk_size
    action_batch : Z) (action_throttle : Q)
    (t_start t_init : Q) (queue : list Action)
    (env : list ReadUntil.iteration) : run :=
  let timeout_pt := fadd t_start run_time in
  let warned :=
    if min_chunk_size >? ReadUntil.ALLOWED_MIN_CHUNK_SIZE
    then [Log WARNING (ReducingMinChunkSize ReadUntil.ALLOWED_MIN_CHUNK_SIZE)]
    else [] in
  let min_chunk_size' :=
    if min_chunk_size >? ReadUntil.ALLOWED_MIN_CHUNK_SIZE
    then ReadUntil.ALLOWED_MIN_CHUNK_SIZE else min_chunk_size in
  if StreamSetup_ok first_channel last_channel min_chunk_size' then
    let rest := ReadUntil.runner_loop timeout_pt action_batch action_throttle
                                      t_init queue env in
    {| events :=
         warned
         ++ [Log INFO SendingInit;
             Yield (setup {| first_channel := first_channel;
                             last_channel := last_channel;
                             raw_data_type := CALIBRATED;
                             sample_minimum_chunk_size := min_chunk_size' |});
             Log INFO (RunningFor run_time)]
         ++ ReadUntil.events rest;
       queue_left := ReadUntil.queue_left rest;
       finished := ReadUntil.finished rest;
       raised := None |}
  else
    {| events := warned ++ [Log INFO SendingInit];
       queue_left := queue;
       finished := false;
       raised := Some ValueError |}.

End schema.
End Wire.

(** ** Sample clients *)

Definition sample_client (q : ReadCache.state) : ReadUntil.client :=
  ReadUntil.mkClient 2 true true ∅ ∅ [] q 0.

Definition scenario_classes : gmap Z string :=
  {[ 83 := "strand"; 77 := "multiple" ]}.

Definition scenario_client : ReadUntil.client :=
  ReadUntil.mkClient 2 true true scenario_classes
    (ReadUntil.collect_strand_classes scenario_classes) []
    (ReadCache.mkState 2 [] 0 0) 0.

(** The setup message for a requested [min_chunk_size]. *)
Definition clamped_setup (first_channel last_channel min_chunk_size : Z)
    : GetLiveReadsRequest :=
  setup {| first_channel := first_channel;
           last_channel := last_channel;
           raw_data_type := CALIBRATED;
           sample_minimum_chunk_size :=
             Z.min min_chunk_size ReadUntil.ALLOWED_MIN_CHUNK_SIZE |}.

(** Items of two channels as the test server records them. *)
Definition sample_channel_data
    : OrderedDict.t (list DataService.ChannelDataItem) :=
  [(4, [DataService.mkChannelDataItem 10
          (DataService.mkItemData true "read-a" 11);
        DataService.mkChannelDataItem 12
          (DataService.mkItemData false "" 11);
        DataService.mkChannelDataItem 13
          (DataService.mkItemData true "read-b" 12)]);
   (5, [DataService.mkChannelDataItem 11
          (DataService.mkItemData true "read-c" 3);
        DataService.mkChannelDataItem (23 # 2)
          (DataService.mkItemData false "read-c" 0)])].




(** * Properties *)

(** The replacement scenario: capacity 2, two puts of channel 1, read 5. *)
Example setitem_twice_same_read :
  match ReadCache.__init__ 2 with
  | Ok c0 =>
      let c1 := snd (ReadCache.__setitem__ 1 (chunk 5) c0) in
      let c2 := snd (ReadCache.__setitem__ 1 (chunk 5) c1) in
      (ReadCache.replaced c2, ReadCache.missed c2, ReadCache.__len__ c2) = (1, 0, 1)
  | Raise _ => False
  end.
Proof. reflexivity. Qed.

(** ** The ordered dict *)

Section ordered_dict_facts.
Context {V : Type}.
Implicit Types (d : OrderedDict.t V) (key : Z) (value : V).

Lemma pop_newest_None d : OrderedDict.pop_newest d = None <-> d = [].
Proof.
  destruct d as [|kv d]; simpl; [done|].
  destruct (OrderedDict.pop_newest d) as [[y r]|]; split; discriminate.
Qed.

Lemma pop_newest_Some d y r :
  OrderedDict.pop_newest d = Some (y, r) <-> d = r ++ [y].
Proof.
  revert y r. induction d as [|kv d IH]; intros y r; simpl.
  - split; [discriminate|]. destruct r; discriminate.
  - destruct (OrderedDict.pop_newest d) as [[y' r']|] eqn:E.
    + pose proof (proj1 (IH y' r') eq_refl) as ->. split.
      * intros [= <- <-]. done.
      * destruct r as [|x r]; simpl.
        -- intros [= _ H]. destruct r'; discriminate.
        -- intros [= <- H]. apply app_inj_tail in H as [<- <-]. done.
    + apply pop_newest_None in E as ->. split.
      * intros [= <- <-]. done.
      * destruct r as [|x r]; simpl.
        -- intros [= <-]. done.
        -- intros [= _ H]. destruct r; discriminate.
Qed.

Lemma popitem_None last d : OrderedDict.popitem last d = None <-> d = [].
Proof.
  destruct last; simpl; [apply pop_newest_None|].
  destruct d; split; done.
Qed.

(** [popitem] takes the entry at the end that [last] names. *)
Lemma popitem_Some last d item d' :
  OrderedDict.popitem last d = Some (item, d') <->
  d = if last then d' ++ [item] else item :: d'.
Proof.
  destruct last; simpl; [apply pop_newest_Some|].
  destruct d; split; intros H; try discriminate; by simplify_eq.
Qed.

Lemma popitem_length last d item d' :
  OrderedDict.popitem last d = Some (item, d') ->
  length d = S (length d').
Proof.
  intros H%popitem_Some. subst d. destruct last; simpl; [|done].
  rewrite length_app. simpl. lia.
Qed.

Lemma popitem_NoDup last d item d' :
  OrderedDict.popitem last d = Some (item, d') ->
  NoDup (OrderedDict.keys d) -> NoDup (OrderedDict.keys d').
Proof.
  intros H%popitem_Some. subst d. unfold OrderedDict.keys.
  destruct last.
  - rewrite fmap_app, NoDup_app. tauto.
  - rewrite fmap_cons, NoDup_cons. tauto.
Qed.

Lemma contains_true key d :
  OrderedDict.contains key d = true <-> key ∈ OrderedDict.keys d.
Proof.
  unfold OrderedDict.contains, OrderedDict.keys.
  induction d as [|[k v] d IH]; simpl.
  - split; [discriminate|]. by intros ?%elem_of_nil.
  - rewrite orb_true_iff, IH, elem_of_cons, Z.eqb_eq.
    split; (intros [?|?]; [left; congruence | by right]).
Qed.

Lemma contains_false key d :
  OrderedDict.contains key d = false <-> key ∉ OrderedDict.keys d.
Proof.
  rewrite <- contains_true.
  destruct (OrderedDict.contains key d); split; congruence.
Qed.

Lemma getitem_resident key d :
  key ∈ OrderedDict.keys d -> is_Some (OrderedDict.getitem key d).
Proof.
  unfold OrderedDict.keys. induction d as [|[k v] d IH]; simpl.
  - by intros ?%elem_of_nil.
  - destruct (Z.eqb_spec k key); [eauto|].
    rewrite elem_of_cons. intros [?|?]; [congruence | by apply IH].
Qed.

(** [del d[key]] of a resident key removes its first entry. *)
Lemma delitem_resident key d :
  key ∈ OrderedDict.keys d ->
  exists pre v post,
    d = pre ++ (key, v) :: post /\ (key ∉ OrderedDict.keys pre)
    /\ OrderedDict.getitem key d = Some v
    /\ OrderedDict.delitem key d = Some (pre ++ post).
Proof.
  unfold OrderedDict.keys. induction d as [|[k v] d IH]; simpl.
  - by intros ?%elem_of_nil.
  - destruct (Z.eqb_spec k key) as [->|Hne].
    + intros _. exists [], v, d. split_and!; try done. apply not_elem_of_nil.
    + rewrite elem_of_cons. intros [?|Hin]; [congruence|].
      destruct (IH Hin) as (pre & w & post & -> & Hpre & Hg & Hd).
      exists ((k, v) :: pre), w, post. rewrite Hd, Hg.
      split_and!; try done. rewrite fmap_cons, not_elem_of_cons.
      split; [simpl; congruence | done].
Qed.

Lemma delitem_absent key d :
  key ∉ OrderedDict.keys d -> OrderedDict.delitem key d = None.
Proof.
  unfold OrderedDict.keys. induction d as [|[k v] d IH]; simpl; [done|].
  rewrite not_elem_of_cons. intros [Hne Hin].
  destruct (Z.eqb_spec k key); [congruence|]. by rewrite IH.
Qed.

(** [d[key] = value] of an absent key appends at the newest end. *)
Lemma setitem_fresh key value d :
  key ∉ OrderedDict.keys d ->
  OrderedDict.setitem key value d = d ++ [(key, value)].
Proof.
  unfold OrderedDict.keys. induction d as [|[k v] d IH]; simpl; [done|].
  rewrite not_elem_of_cons. intros [Hne Hin].
  destruct (Z.eqb_spec k key); [congruence|]. by rewrite IH.
Qed.

End ordered_dict_facts.

(** ** The eviction loop *)

Section evict_facts.
Import ReadCache.
Implicit Types (d : OrderedDict.t ReadData) (key sz m r : Z).


Lemma geb_false_lt (x y : Z) : x < y -> (x >=? y) = false.
Proof. intros H. rewrite Z.geb_leb. by apply Z.leb_gt. Qed.

Lemma geb_true_le (x y : Z) : y <= x -> (x >=? y) = true.
Proof. intros H. rewrite Z.geb_leb. by apply Z.leb_le. Qed.

(** Below capacity the loop does nothing. *)
Lemma evict_below sz key value d counted m r :
  Z.of_nat (length d) < sz ->
  evict sz key value d counted m r = (Ok counted, (d, m, r)).
Proof.
  intros H%geb_false_lt.
  destruct d as [|[k v] d]; unfold evict; fold evict; by rewrite H.
Qed.

(** At or above capacity the loop pops the oldest entry and counts it. *)
Lemma evict_pop sz key value k v d counted m r :
  sz <= Z.of_nat (length ((k, v) :: d)) ->
  evict sz key value ((k, v) :: d) counted m r =
    if (k =? key) && (number v =? number value)
    then evict sz key value d true m (r + 1)
    else evict sz key value d true (m + 1) r.
Proof.
  intros H%geb_true_le. unfold evict at 1; fold evict. by rewrite H.
Qed.

(** With a capacity of at least one the loop ends normally: it pops a
    prefix [pre] of the dict, the oldest entries, counts each of them
    once, and stops as soon as fewer than [sz] entries are left. *)
Lemma evict_spec sz key value d counted m r :
  1 <= sz ->
  exists pre d' m' r',
    evict sz key value d counted m r
      = (Ok (counted || negb (Nat.eqb (length pre) 0)), (d', m', r'))
    /\ d = pre ++ d'
    /\ Z.of_nat (length d') < sz
    /\ (Z.of_nat (length d) < sz -> pre = [])
    /\ (sz <= Z.of_nat (length d) -> Z.of_nat (length d') = sz - 1)
    /\ m <= m' /\ r <= r'
    /\ m' + r' = m + r + Z.of_nat (length pre)
    /\ ((key ∉ OrderedDict.keys pre) -> r' = r).
Proof.
  intros Hsz. revert counted m r.
  induction d as [|[k v] d IH]; intros counted m r.
  - exists [], [], m, r. rewrite evict_below by (simpl; lia).
    rewrite orb_false_r. simpl. split_and!; try done; try lia.
  - destruct (Z.ltb_spec (Z.of_nat (length ((k, v) :: d))) sz) as [Hlt|Hge].
    + exists [], ((k, v) :: d), m, r. rewrite evict_below by done.
      rewrite orb_false_r. split_and!; try done; simpl in *; lia.
    + rewrite evict_pop by done.
      assert (Hlast : forall pre d', d = pre ++ d' ->
                (Z.of_nat (length d) < sz -> pre = []) ->
                (sz <= Z.of_nat (length d) -> Z.of_nat (length d') = sz - 1) ->
                Z.of_nat (length d') = sz - 1).
      { intros pre d' -> Hpre Hfull.
        destruct (Z.ltb_spec (Z.of_nat (length (pre ++ d'))) sz) as [Hlt|Hge'].
        - rewrite (Hpre Hlt) in *. simpl in *. lia.
        - by apply Hfull. }
      set (hit := (k =? key) && (number v =? number value)).
      assert (Hhit : hit = true -> k = key).
      { unfold hit. rewrite andb_true_iff, Z.eqb_eq. tauto. }
      destruct hit.
      * destruct (IH true m (r + 1))
          as (pre & d' & m' & r' & He & Hd & Hlen & Hpre & Hfull & ? & ? & ? & _).
        exists ((k, v) :: pre), d', m', r'. rewrite He.
        split_and!.
        -- simpl. by rewrite orb_true_r.
        -- by rewrite Hd.
        -- done.
        -- intros ?. lia.
        -- intros _. by apply (Hlast pre).
        -- lia.
        -- lia.
        -- simpl length. lia.
        -- unfold OrderedDict.keys. rewrite fmap_cons, not_elem_of_cons.
           simpl. intros [Hne _]. by specialize (Hhit eq_refl).
      * destruct (IH true (m + 1) r)
          as (pre & d' & m' & r' & He & Hd & Hlen & Hpre & Hfull & ? & ? & ? & Hr).
        exists ((k, v) :: pre), d', m', r'. rewrite He.
        split_and!.
        -- simpl. by rewrite orb_true_r.
        -- by rewrite Hd.
        -- done.
        -- intros ?. lia.
        -- intros _. by apply (Hlast pre).
        -- lia.
        -- lia.
        -- simpl length. lia.
        -- unfold OrderedDict.keys. rewrite fmap_cons, not_elem_of_cons.
           intros [_ Hin]. by apply Hr.
Qed.

End evict_facts.

(** ** [ReadCache.__setitem__] after the eviction loop *)

Section setitem_facts.
Import ReadCache.
Implicit Types (d : OrderedDict.t ReadData) (key sz m r : Z) (st : state).

(** Once the loop has ended normally, either the key is absent and the
    entry is appended, or the key is resident: its entry is removed, the
    overwrite is counted only if the loop popped nothing, and the entry
    is appended. *)
Lemma setitem_unfold key value st counted d' m' r' :
  evict (size st) key value (dict st) false (missed st) (replaced st)
    = (Ok counted, (d', m', r')) ->
  ((key ∉ OrderedDict.keys d')
   /\ __setitem__ key value st
      = (Ok tt, mkState (size st) (d' ++ [(key, value)]) m' r'))
  \/ (exists p old q,
        d' = p ++ (key, old) :: q /\ (key ∉ OrderedDict.keys p)
        /\ __setitem__ key value st
           = (Ok tt,
              mkState (size st) (OrderedDict.setitem key value (p ++ q))
                (if counted then m'
                 else if number old =? number value then m' else m' + 1)
                (if counted then r'
                 else if number old =? number value then r' + 1 else r'))).
Proof.
  intros He. unfold __setitem__. rewrite He.
  destruct (OrderedDict.contains key d') eqn:Hc.
  - right. apply contains_true in Hc.
    destruct (delitem_resident key d' Hc) as (p & old & q & -> & Hp & Hg & Hd).
    exists p, old, q. rewrite Hg, Hd. split_and!; try done.
    destruct counted; simpl; [done|].
    by destruct (number old =? number value).
  - left. apply contains_false in Hc. split; [done|].
    by rewrite setitem_fresh.
Qed.

Lemma keys_app d1 d2 :
  OrderedDict.keys (d1 ++ d2) = OrderedDict.keys d1 ++ OrderedDict.keys d2.
Proof. unfold OrderedDict.keys. apply fmap_app. Qed.

Lemma keys_middle_NoDup p key (old : ReadData) q :
  NoDup (OrderedDict.keys (p ++ (key, old) :: q)) ->
  NoDup (OrderedDict.keys (p ++ q)) /\ (key ∉ OrderedDict.keys (p ++ q)).
Proof.
  rewrite !keys_app. unfold OrderedDict.keys. rewrite fmap_cons. simpl.
  intros H. apply NoDup_app in H as (Hp & Hpq & Hq).
  apply NoDup_cons in Hq as [Hk Hq].
  split.
  - apply NoDup_app. split_and!; try done.
    intros x Hx Hxq. apply (Hpq x Hx). by right.
  - rewrite elem_of_app. intros [Hin|Hin]; [|done].
    apply (Hpq key Hin). by left.
Qed.

(** A put on a cache of capacity at least one returns normally and keeps
    the invariant. *)
Lemma setitem_inv key value st :
  1 <= size st -> NoDup (OrderedDict.keys (dict st)) ->
  exists st',
    __setitem__ key value st = (Ok tt, st')
    /\ size st' = size st /\ cache_inv st'.
Proof.
  intros Hsz Hnd.
  destruct (evict_spec (size st) key value (dict st) false (missed st)
              (replaced st) Hsz)
    as (pre & d' & m' & r' & He & Hd & Hlen & _).
  assert (Hnd' : NoDup (OrderedDict.keys d')).
  { rewrite Hd, keys_app in Hnd. by apply NoDup_app in Hnd as (_ & _ & ?). }
  destruct (setitem_unfold _ _ _ _ _ _ _ He)
    as [[Hk ->]|(p & old & q & -> & Hp & ->)];
    eexists; (split; [reflexivity|]); (split; [done|]);
    unfold cache_inv, __len__; simpl.
  - rewrite length_app, keys_app. simpl. split; [lia|].
    apply NoDup_app. split_and!; try done.
    + intros x Hx ->%list_elem_of_singleton. done.
    + apply NoDup_singleton.
  - destruct (keys_middle_NoDup _ _ _ _ Hnd') as [Hpq Hk].
    rewrite setitem_fresh by done.
    rewrite !length_app in *. simpl in *. rewrite keys_app.
    split; [lia|].
    apply NoDup_app. split_and!; try done.
    + intros x Hx ->%list_elem_of_singleton. done.
    + apply NoDup_singleton.
Qed.

End setitem_facts.

(** ** Pops *)

Section pop_facts.
Import ReadCache.
Implicit Types (d : OrderedDict.t ReadData) (st : state).

(** The batch loop moves entries from the dict to the batch: none is
    lost, none is made up, and an empty dict gives nothing. *)
Lemma popitems_loop_moves n last d data :
  exists taken d',
    popitems_loop n last d data = (data ++ taken, d')
    /\ (length taken + length d' = length d)%nat
    /\ (length taken <= n)%nat
    /\ (NoDup (OrderedDict.keys d) -> NoDup (OrderedDict.keys d'))
    /\ (d = [] -> taken = [] /\ d' = []).
Proof.
  revert d data. induction n as [|n IH]; intros d data; simpl.
  - exists [], d. rewrite app_nil_r. split_and!; done.
  - destruct (OrderedDict.popitem last d) as [[item d1]|] eqn:E.
    + destruct (IH d1 (data ++ [item])) as (taken & d' & -> & Hlen & Hn & Hnd & _).
      exists (item :: taken), d'. rewrite <- app_assoc. simpl.
      pose proof (popitem_length _ _ _ _ E).
      split_and!; try done; try lia.
      * intros H'. apply Hnd. by eapply popitem_NoDup.
      * intros ->. by destruct last.
    + apply popitem_None in E as ->.
      destruct (IH [] data) as (taken & d' & -> & Hlen & Hn & Hnd & Hnil).
      exists taken, d'. split_and!; try done. lia.
Qed.

(** With [last = False] the batch is the oldest entries, oldest first. *)
Lemma popitems_loop_oldest n d data :
  popitems_loop n false d data = (data ++ take n d, drop n d).
Proof.
  revert d data. induction n as [|n IH]; intros d data; simpl.
  - by rewrite app_nil_r.
  - destruct d as [|kv d]; simpl.
    + rewrite IH. by rewrite take_nil, drop_nil.
    + rewrite IH. by rewrite <- app_assoc.
Qed.

(** With [last = True] the batch is the newest entries, newest first. *)
Lemma popitems_loop_newest n d data :
  popitems_loop n true d data
  = (data ++ take n (reverse d), reverse (drop n (reverse d))).
Proof.
  revert d data. induction n as [|n IH]; intros d data; simpl.
  - by rewrite app_nil_r, drop_0, reverse_involutive.
  - destruct (OrderedDict.pop_newest d) as [[y r]|] eqn:E.
    + apply pop_newest_Some in E as ->.
      rewrite IH, reverse_app. simpl. by rewrite <- app_assoc.
    + apply pop_newest_None in E as ->.
      rewrite IH, reverse_nil. by rewrite !take_nil, !drop_nil.
Qed.

Lemma popitem_inv last st :
  cache_inv st ->
  cache_inv (snd (popitem last st))
  /\ size (snd (popitem last st)) = size st.
Proof.
  intros [Hlen Hnd]. unfold popitem.
  destruct (OrderedDict.popitem last (dict st)) as [[item d']|] eqn:E;
    simpl; [|done].
  split; [|done]. unfold cache_inv, __len__ in *. simpl.
  pose proof (popitem_length _ _ _ _ E).
  split; [lia|]. by eapply popitem_NoDup.
Qed.

Lemma popitems_inv items last st :
  cache_inv st ->
  cache_inv (snd (popitems items last st))
  /\ size (snd (popitems items last st)) = size st.
Proof.
  intros [Hlen Hnd]. unfold popitems.
  destruct (popitems_loop_moves (Z.to_nat items) last (dict st) [])
    as (taken & d' & -> & Hl & _ & Hnd' & _).
  simpl. split; [|done]. unfold cache_inv, __len__ in *. simpl.
  split; [lia|]. by apply Hnd'.
Qed.

End pop_facts.

(** ** Sequences of operations keep the invariant *)

Lemma step_inv (N : Z) (o : observation) (x : op) :
  1 <= N -> ReadCache.size (cache o) = N -> cache_inv (cache o) ->
  ReadCache.size (cache (step o x)) = N /\ cache_inv (cache (step o x)).
Proof.
  intros HN Hsz Hinv. destruct x as [key value|last|items last]; simpl.
  - destruct (setitem_inv key value (cache o)) as (st' & -> & Hs & Hi);
      [lia | apply Hinv |]. simpl. split; [congruence | done].
  - pose proof (popitem_inv last (cache o) Hinv) as [Hi Hs].
    destruct (ReadCache.popitem last (cache o)) as [[item|e] c]; simpl in *;
      (split; [congruence | done]).
  - pose proof (popitems_inv items last (cache o) Hinv) as [Hi Hs].
    destruct (ReadCache.popitems items last (cache o)) as [[data|e] c];
      simpl in *; (split; [congruence | done]).
Qed.

Lemma run_ops_inv (N : Z) (ops : list op) (o : observation) :
  1 <= N -> ReadCache.size (cache o) = N -> cache_inv (cache o) ->
  ReadCache.size (cache (run_ops ops o)) = N
  /\ cache_inv (cache (run_ops ops o)).
Proof.
  intros HN. revert o. induction ops as [|x ops IH]; intros o Hsz Hinv; simpl.
  - done.
  - destruct (step_inv N o x HN Hsz Hinv) as [Hs Hi]. by apply IH.
Qed.

(** C4: from a cache built with capacity [N >= 1], after every sequence of
    puts, single pops and batch pops the cache holds between 0 and [N]
    entries and no channel key occurs twice. *)
Theorem cache_bounded_keys_unique (N : Z) (ops : list op) :
  1 <= N ->
  exists c0,
    ReadCache.__init__ N = Ok c0
    /\ let c := cache (run_ops ops (observe c0)) in
       0 <= ReadCache.__len__ c <= N
       /\ NoDup (OrderedDict.keys (ReadCache.dict c)).
Proof.
  intros HN. unfold ReadCache.__init__.
  destruct (Z.ltb_spec N 1) as [?|_]; [lia|].
  eexists. split; [reflexivity|].
  destruct (run_ops_inv N ops
              (observe (ReadCache.mkState N [] 0 0)) HN eq_refl) as [Hs [Hl Hn]].
  - split; [unfold ReadCache.__len__; simpl; lia | apply NoDup_nil_2].
  - simpl. rewrite Hs in Hl. done.
Qed.

Lemma cache_bounded_keys_unique_witness :
  exists c0,
    ReadCache.__init__ 2 = Ok c0
    /\ let c := cache (run_ops [Put 1 (chunk 5); Put 2 (chunk 7);
                                Put 3 (chunk 9); PopItem true]
                               (observe c0)) in
       0 <= ReadCache.__len__ c <= 2
       /\ NoDup (OrderedDict.keys (ReadCache.dict c)).
Proof. apply (cache_bounded_keys_unique 2); lia. Defined.

(** ** Pops on an empty cache *)

(** C9: on an empty cache the single pop raises KeyError, and the batch
    pop, for every count [k], returns the empty list; both leave the
    contents and the counters as they were. *)
Theorem pops_on_empty_cache (st : ReadCache.state) :
  ReadCache.dict st = [] ->
  (forall last, ReadCache.popitem last st = (Raise KeyError, st))
  /\ (forall k last, ReadCache.popitems k last st = (Ok [], st)).
Proof.
  destruct st as [sz d m r]. simpl. intros ->. split.
  - intros last. unfold ReadCache.popitem. simpl. by destruct last.
  - intros k last. unfold ReadCache.popitems. simpl.
    destruct (popitems_loop_moves (Z.to_nat k) last [] [])
      as (taken & d' & -> & _ & _ & _ & Hnil).
    by destruct (Hnil eq_refl) as [-> ->].
Qed.

Lemma pops_on_empty_cache_witness :
  (forall last, ReadCache.popitem last (ReadCache.mkState 2 [] 3 4)
                = (Raise KeyError, ReadCache.mkState 2 [] 3 4))
  /\ (forall k last, ReadCache.popitems k last (ReadCache.mkState 2 [] 3 4)
                     = (Ok [], ReadCache.mkState 2 [] 3 4)).
Proof. apply (pops_on_empty_cache (ReadCache.mkState 2 [] 3 4)). reflexivity. Defined.

(** ** The counters *)

Section counter_facts.
Import ReadCache.

Lemma popitem_counters last st :
  missed (snd (popitem last st)) = missed st
  /\ replaced (snd (popitem last st)) = replaced st.
Proof.
  unfold popitem.
  by destruct (OrderedDict.popitem last (dict st)) as [[item d']|].
Qed.

Lemma popitems_counters items last st :
  missed (snd (popitems items last st)) = missed st
  /\ replaced (snd (popitems items last st)) = replaced st.
Proof.
  unfold popitems.
  by destruct (popitems_loop (Z.to_nat items) last (dict st) []).
Qed.

(** The counters after a put, when the cache is within its capacity:
    neither goes down and together they go up by at most one. *)
Lemma setitem_counters key value st :
  __len__ st <= size st ->
  let st' := snd (__setitem__ key value st) in
  missed st <= missed st' /\ replaced st <= replaced st'
  /\ missed st' + replaced st' <= missed st + replaced st + 1.
Proof.
  unfold __len__. intros Hlen.
  destruct (Z.ltb_spec (size st) 1) as [Hsz|Hsz].
  - destruct st as [sz d m r]. simpl in *.
    destruct d as [|kv d]; [|simpl in Hlen; lia].
    unfold __setitem__. simpl.
    rewrite geb_true_le by (simpl in *; lia). simpl. lia.
  - destruct (evict_spec (size st) key value (dict st) false (missed st)
                (replaced st) Hsz)
      as (pre & d' & m' & r' & He & Hd & Hlen' & Hpre & Hfull & Hm & Hr & Hsum & _).
    assert (Hone : (length pre <= 1)%nat).
    { destruct (Z.ltb_spec (Z.of_nat (length (dict st))) (size st)) as [Hlt|Hge].
      - rewrite (Hpre Hlt). simpl. lia.
      - specialize (Hfull Hge). rewrite Hd, length_app in Hlen. lia. }
    simpl in He.
    destruct (setitem_unfold _ _ _ _ _ _ _ He)
      as [[_ ->]|(p & old & q & _ & _ & ->)]; simpl; [lia|].
    destruct pre as [|x pre]; simpl in *.
    + destruct (number old =? number value); lia.
    + lia.
Qed.

End counter_facts.

(** C10: the counters [missed] and [replaced] change only in a put: every
    single pop and every batch pop leaves both as they were, and a put on a
    cache that holds at most [size] entries lowers neither and raises their
    sum by at most one. *)
Theorem counters_change_only_in_put (st : ReadCache.state) :
  (forall last,
     ReadCache.missed (snd (ReadCache.popitem last st)) = ReadCache.missed st
     /\ ReadCache.replaced (snd (ReadCache.popitem last st))
        = ReadCache.replaced st)
  /\ (forall items last,
        ReadCache.missed (snd (ReadCache.popitems items last st))
        = ReadCache.missed st
        /\ ReadCache.replaced (snd (ReadCache.popitems items last st))
           = ReadCache.replaced st)
  /\ (forall key value,
        ReadCache.__len__ st <= ReadCache.size st ->
        let st' := snd (ReadCache.__setitem__ key value st) in
        ReadCache.missed st <= ReadCache.missed st'
        /\ ReadCache.replaced st <= ReadCache.replaced st'
        /\ ReadCache.missed st' + ReadCache.replaced st'
           <= ReadCache.missed st + ReadCache.replaced st + 1).
Proof.
  split_and!.
  - intros last. apply popitem_counters.
  - intros items last. apply popitems_counters.
  - intros key value. apply setitem_counters.
Qed.

Lemma counters_change_only_in_put_witness :
  let st := ReadCache.mkState 2 [(1, chunk 5); (2, chunk 7)] 0 0 in
  ReadCache.__len__ st <= ReadCache.size st
  /\ let st' := snd (ReadCache.__setitem__ 2 (chunk 8) st) in
     ReadCache.missed st <= ReadCache.missed st'
     /\ ReadCache.replaced st <= ReadCache.replaced st'
     /\ ReadCache.missed st' + ReadCache.replaced st'
        <= ReadCache.missed st + ReadCache.replaced st + 1.
Proof.
  intros st. assert (H : ReadCache.__len__ st <= ReadCache.size st).
  { unfold ReadCache.__len__. simpl. lia. }
  split; [exact H|].
  exact (proj2 (proj2 (counters_change_only_in_put st)) 2 (chunk 8) H).
Defined.

(** ** A put of an absent channel on a full cache *)

Section put_at_capacity.
Import ReadCache.

Lemma setitem_absent_at_capacity st key value :
  1 <= size st -> __len__ st = size st ->
  OrderedDict.contains key (dict st) = false ->
  exists k v rest,
    dict st = (k, v) :: rest
    /\ (k =? key) && (number v =? number value) = false
    /\ __setitem__ key value st
       = (Ok tt,
          mkState (size st) (rest ++ [(key, value)])
            (missed st
             + (if (k =? key) && (number v =? number value) then 0 else 1))
            (replaced st
             + (if (k =? key) && (number v =? number value) then 1 else 0))).
Proof.
  unfold __len__. intros Hsz Hlen Hc.
  destruct st as [sz d m r]. simpl in *.
  destruct d as [|[k v] rest]; [simpl in Hlen; lia|].
  exists k, v, rest. split; [done|].
  simpl in Hc. apply orb_false_iff in Hc as [Hk Hrest].
  assert (Hhit : (k =? key) && (number v =? number value) = false)
    by (by rewrite Hk).
  split; [done|].
  unfold __setitem__. simpl size. simpl dict. simpl missed. simpl replaced.
  rewrite evict_pop by lia. rewrite Hhit.
  rewrite evict_below by (simpl in Hlen; lia).
  fold (OrderedDict.contains key rest). rewrite Hrest.
  apply contains_false in Hrest. rewrite setitem_fresh by done.
  by rewrite Z.add_0_r.
Qed.

End put_at_capacity.

(** C5: on a cache that holds exactly [size >= 1] entries, none of them on
    channel [key], a put evicts the oldest entry and nothing else and
    appends the new entry; the evicted entry adds one to [replaced] if it
    has the channel and the read number of the incoming chunk and one to
    [missed] otherwise, and here it is always [missed].  With capacity 2,
    the puts (1, read 5), (2, read 7), (3, read 9) end with [missed = 1],
    two entries, and channel 1 gone. *)
Theorem put_at_capacity_evicts_oldest :
  (forall st key value,
     1 <= ReadCache.size st ->
     ReadCache.__len__ st = ReadCache.size st ->
     OrderedDict.contains key (ReadCache.dict st) = false ->
     exists k v rest,
       ReadCache.dict st = (k, v) :: rest
       /\ (k =? key) && (number v =? number value) = false
       /\ ReadCache.__setitem__ key value st
          = (Ok tt,
             ReadCache.mkState (ReadCache.size st) (rest ++ [(key, value)])
               (ReadCache.missed st
                + (if (k =? key) && (number v =? number value) then 0 else 1))
               (ReadCache.replaced st
                + (if (k =? key) && (number v =? number value) then 1 else 0))))
  /\ (exists c0,
        ReadCache.__init__ 2 = Ok c0
        /\ let c := cache (run_ops [Put 1 (chunk 5); Put 2 (chunk 7);
                                    Put 3 (chunk 9)] (observe c0)) in
           ReadCache.missed c = 1 /\ ReadCache.replaced c = 0
           /\ ReadCache.__len__ c = 2
           /\ OrderedDict.keys (ReadCache.dict c) = [2; 3]).
Proof.
  split.
  - apply setitem_absent_at_capacity.
  - eexists. split; [reflexivity|]. by vm_compute.
Qed.

Lemma put_at_capacity_evicts_oldest_witness :
  let st := ReadCache.mkState 2 [(1, chunk 5); (2, chunk 7)] 0 0 in
  exists k v rest,
    ReadCache.dict st = (k, v) :: rest
    /\ (k =? 3) && (number v =? number (chunk 9)) = false
    /\ ReadCache.__setitem__ 3 (chunk 9) st
       = (Ok tt,
          ReadCache.mkState (ReadCache.size st) (rest ++ [(3, chunk 9)])
            (ReadCache.missed st
             + (if (k =? 3) && (number v =? number (chunk 9)) then 0 else 1))
            (ReadCache.replaced st
             + (if (k =? 3) && (number v =? number (chunk 9)) then 1 else 0))).
Proof.
  intros st.
  apply (proj1 put_at_capacity_evicts_oldest st 3 (chunk 9));
    [simpl; lia | reflexivity | reflexivity].
Defined.

(** ** A put of a resident channel *)

Section overwrite.
Import ReadCache.

(** Below capacity a put of a resident channel compares the read
    numbers, counts the overwrite once, removes the resident entry and
    appends the new one. *)
Lemma overwrite_below_capacity st key value :
  NoDup (OrderedDict.keys (dict st)) ->
  __len__ st < size st ->
  OrderedDict.contains key (dict st) = true ->
  exists p old q,
    dict st = p ++ (key, old) :: q
    /\ __setitem__ key value st
       = (Ok tt,
          mkState (size st) ((p ++ q) ++ [(key, value)])
            (if number old =? number value
             then missed st else missed st + 1)
            (if number old =? number value
             then replaced st + 1 else replaced st)).
Proof.
  unfold __len__. intros Hnd Hlen Hc.
  pose proof (evict_below (size st) key value (dict st) false (missed st)
                (replaced st) Hlen) as He.
  destruct (setitem_unfold _ _ _ _ _ _ _ He)
    as [[Hk _]|(p & old & q & Hd & Hp & ->)].
  - by apply contains_false in Hk; rewrite Hk in Hc.
  - exists p, old, q. split; [done|].
    rewrite Hd in Hnd. apply keys_middle_NoDup in Hnd as [_ Hk].
    by rewrite setitem_fresh.
Qed.

(** At capacity, with the resident channel not the oldest, the put pops
    the oldest entry and counts it as missed, then removes the resident
    entry without counting it: two entries leave, one is counted. *)
Lemma overwrite_at_capacity st key value :
  NoDup (OrderedDict.keys (dict st)) ->
  1 <= size st -> __len__ st = size st ->
  OrderedDict.contains key (dict st) = true ->
  (exists v rest, dict st = (key, v) :: rest
     /\ __setitem__ key value st
        = (Ok tt,
           mkState (size st) (rest ++ [(key, value)])
             (if number v =? number value then missed st else missed st + 1)
             (if number v =? number value
              then replaced st + 1 else replaced st)))
  \/ (exists k v p old q,
        dict st = (k, v) :: p ++ (key, old) :: q /\ k <> key
        /\ __setitem__ key value st
           = (Ok tt,
              mkState (size st) ((p ++ q) ++ [(key, value)])
                (missed st + 1) (replaced st))).
Proof.
  unfold __len__. intros Hnd Hsz Hlen Hc.
  destruct st as [sz d m r]. simpl in *.
  destruct d as [|[k v] rest]; [simpl in Hlen; lia|].
  assert (Hrest : Z.of_nat (length rest) < sz) by (simpl in Hlen; lia).
  unfold OrderedDict.keys in Hnd. rewrite fmap_cons in Hnd. simpl in Hnd.
  apply NoDup_cons in Hnd as [Hk Hnd].
  destruct (Z.eqb_spec k key) as [->|Hne].
  - left. exists v, rest. split; [done|].
    apply contains_false in Hk.
    unfold __setitem__. simpl size. simpl dict. simpl missed. simpl replaced.
    rewrite evict_pop by lia. rewrite Z.eqb_refl. simpl andb.
    destruct (number v =? number value);
      rewrite evict_below by done; rewrite Hk;
      apply contains_false in Hk; by rewrite setitem_fresh.
  - right. simpl in Hc.
    destruct (Z.eqb_spec k key) as [?|_]; [done|]. simpl in Hc.
    assert (He : evict sz key value ((k, v) :: rest) false m r
                 = (Ok true, (rest, m + 1, r))).
    { rewrite evict_pop by lia.
      destruct (Z.eqb_spec k key) as [?|_]; [done|].
      by rewrite !evict_below by done. }
    destruct (setitem_unfold key value (mkState sz ((k, v) :: rest) m r)
                _ _ _ _ He)
      as [[Hk' _]|(p & old & q & Hd & Hp & ->)].
    + apply contains_false in Hk'. simpl in Hk'. congruence.
    + exists k, v, p, old, q. rewrite Hd. split_and!; try done.
      rewrite Hd in Hnd. apply keys_middle_NoDup in Hnd as [_ Hkq].
      by rewrite setitem_fresh.
Qed.

End overwrite.

(** C1: the cache of capacity 2 holds channel 1 (read 5) and channel 2
    (read 7); a put of channel 2 with read 7 leaves the one entry of
    channel 2, [missed = 1] and [replaced = 0]: the oldest entry was
    evicted although the key is resident, and the overwrite by a chunk of
    the same read was not counted in [replaced]. *)
Theorem overwrite_at_capacity_evicts_and_skips_count :
  ReadCache.__setitem__ 2 (chunk 7)
    (ReadCache.mkState 2 [(1, chunk 5); (2, chunk 7)] 0 0)
  = (Ok tt, ReadCache.mkState 2 [(2, chunk 7)] 1 0).
Proof. reflexivity. Qed.

(** ** Conservation of chunks *)

(** C2: with capacity 2, after the puts (1, read 5), (2, read 7),
    (2, read 7) three chunks have entered the cache and none was popped,
    yet missed + replaced + delivered + resident is 2: the chunk that the
    third put overwrote is counted nowhere. *)
Theorem conservation_breaks_on_overwrite_at_capacity :
  exists c0,
    ReadCache.__init__ 2 = Ok c0
    /\ let o := run_ops [Put 1 (chunk 5); Put 2 (chunk 7); Put 2 (chunk 7)]
                        (observe c0) in
       total_puts o = 3%nat /\ delivered o = []
       /\ ReadCache.missed (cache o) = 1 /\ ReadCache.replaced (cache o) = 0
       /\ ReadCache.__len__ (cache o) = 1
       /\ accounted o = 2.
Proof. eexists. split; [reflexivity|]. by vm_compute. Qed.

(** ** [ReadUntil.get_read_chunks] *)


(** The argument [last] does not reach the cache. *)
Lemma get_read_chunks_last_unused batch_size last c :
  ReadUntil.get_read_chunks batch_size last c
  = ReadUntil.get_read_chunks batch_size true c.
Proof. reflexivity. Qed.

(** C3: the cache holds channel 1 (the oldest entry) and channel 2 (the
    newest); [get_read_chunks(1, last=False)] returns the entry of channel
    2, the newest, where [popitems(1, last=False)] of the cache returns
    the entry of channel 1, the oldest. *)
Theorem get_read_chunks_last_false_returns_newest :
  let q := ReadCache.mkState 2 [(1, chunk 5); (2, chunk 7)] 0 0 in
  fst (ReadUntil.get_read_chunks 1 false (sample_client q))
    = Ok [(2, chunk 7)]
  /\ fst (ReadCache.popitems 1 false q) = Ok [(1, chunk 5)].
Proof. split; reflexivity. Qed.

(** ** The strand filter of the inbound loop *)

Section strand_filter.
Import ReadUntil.

Lemma elem_of_allowed_classes (name : string) :
  name ∈ allowed_classes <->
  name = "strand" \/ name = "strand1" \/ name = "adapter"
  \/ name = "unavailable".
Proof.
  unfold allowed_classes.
  rewrite !elem_of_union, !elem_of_singleton. tauto.
Qed.

(** The collected codes are the codes that the classification map sends
    to an allowed name. *)
Lemma elem_of_collect_strand_classes (m : gmap Z string) (code : Z) :
  code ∈ collect_strand_classes m <->
  exists name, m !! code = Some name /\ name ∈ allowed_classes.
Proof.
  unfold collect_strand_classes. revert code.
  apply (map_fold_weak_ind
           (fun (acc : gset Z) (m : gmap Z string) =>
              forall code, code ∈ acc <->
                exists name, m !! code = Some name /\ name ∈ allowed_classes)).
  - intros code. split.
    + by intros ?%not_elem_of_empty.
    + intros (name & H & _). by rewrite lookup_empty in H.
  - intros i x m' acc Hfresh IH code.
    destruct (decide (code = i)) as [->|Hne].
    + rewrite lookup_insert_eq.
      destruct (decide (x ∈ allowed_classes)) as [Hx|Hx].
      * split; [intros _; by exists x |].
        intros _. apply elem_of_union. left. by apply elem_of_singleton.
      * rewrite IH, Hfresh. split.
        -- by intros (name & ? & _).
        -- intros (name & [= <-] & ?). done.
    + rewrite lookup_insert_ne by done.
      destruct (decide (x ∈ allowed_classes)) as [Hx|Hx]; [|apply IH].
      rewrite elem_of_union, elem_of_singleton, IH. split.
      * intros [?|?]; [done|done].
      * intros ?. by right.
Qed.

Lemma strand_like_true (c : client) (read : ReadData) :
  strand_like c read = true <->
  exists code, code ∈ chunk_classifications read /\ code ∈ strand_classes c.
Proof.
  unfold strand_like. rewrite existsb_exists. split.
  - intros (code & Hin & Hb). exists code.
    apply list_elem_of_In in Hin. by apply bool_decide_eq_true in Hb.
  - intros (code & Hin & Hs). exists code.
    apply list_elem_of_In in Hin. by rewrite bool_decide_eq_true.
Qed.

(** The stop request of the one-chunk policy: it never raises and leaves
    the cache and the filter settings alone. *)
Lemma stop_receiving_read_ok uuid4 ch n (c : client) :
  exists c1,
    stop_receiving_read uuid4 ch n c = (Ok tt, c1)
    /\ data_queue c1 = data_queue c
    /\ filter_strands c1 = filter_strands c
    /\ strand_classes c1 = strand_classes c.
Proof. eexists. split; [reflexivity|]. done. Qed.

(** What [process_read] leaves in the cache. *)
Lemma process_read_data_queue uuid4 ch read (c : client) :
  data_queue (snd (process_read uuid4 ch read c))
  = if negb (filter_strands c) || strand_like c read
    then snd (ReadCache.__setitem__ ch read (data_queue c))
    else data_queue c.
Proof.
  unfold process_read.
  destruct (one_chunk c).
  - destruct (stop_receiving_read_ok uuid4 ch (number read) c)
      as (c1 & -> & Hq & Hf & Hs).
    unfold strand_like. rewrite Hf, Hs. fold (strand_like c read).
    destruct (negb (filter_strands c) || strand_like c read); [|done].
    unfold store. rewrite Hq.
    by destruct (ReadCache.__setitem__ ch read (data_queue c)).
  - destruct (negb (filter_strands c) || strand_like c read); [|done].
    unfold store.
    by destruct (ReadCache.__setitem__ ch read (data_queue c)).
Qed.

(** A put on a cache of capacity at least one is never a no-op. *)
Lemma setitem_changes_state key value (st : ReadCache.state) :
  1 <= ReadCache.size st ->
  snd (ReadCache.__setitem__ key value st) <> st.
Proof.
  intros Hsz.
  destruct (evict_spec (ReadCache.size st) key value (ReadCache.dict st)
              false (ReadCache.missed st) (ReadCache.replaced st) Hsz)
    as (pre & d' & m' & r' & He & Hd & _ & _ & _ & Hm & Hr & Hsum & _).
  simpl in He.
  destruct (setitem_unfold _ _ _ _ _ _ _ He)
    as [[_ ->]|(p & old & q & _ & _ & ->)]; simpl;
    destruct st as [sz d m r]; simpl in *; intros [= Hd' Hm' Hr'].
  - assert (length pre = 0%nat) by lia.
    destruct pre; [|done]. simpl in Hd. subst d'.
    apply (f_equal length) in Hd'. rewrite length_app in Hd'. simpl in Hd'.
    lia.
  - destruct pre as [|x pre]; simpl in *.
    + destruct (number old =? number value); lia.
    + lia.
Qed.

(** The constructor relates the strand-like codes to the classification
    map, and the inbound loop keeps both. *)
Lemma init_strand_classes rc n fs oc (c : client) :
  __init__ rc n fs oc = Ok c ->
  strand_classes c = collect_strand_classes (read_classes c).
Proof.
  unfold __init__. destruct (ReadCache.__init__ n); [|discriminate].
  by intros [= <-].
Qed.

Lemma process_read_classes uuid4 ch read (c : client) :
  strand_classes (snd (process_read uuid4 ch read c)) = strand_classes c
  /\ read_classes (snd (process_read uuid4 ch read c)) = read_classes c
  /\ filter_strands (snd (process_read uuid4 ch read c)) = filter_strands c.
Proof.
  unfold process_read, store.
  destruct (one_chunk c); simpl;
    destruct (negb (filter_strands c) || strand_like _ read); simpl;
    try done;
    by destruct (ReadCache.__setitem__ ch read (data_queue c)).
Qed.

End strand_filter.

(** C6: for a client whose strand-like codes are those collected from its
    classification map, the inbound loop stores a chunk in the cache
    exactly when [filter_strands] is off or the chunk is strand-like: then
    the cache is the one the put leaves (and differs from the one before),
    otherwise the cache is untouched.  The chunk is strand-like exactly when
    one of its classification codes is sent by the classification map to
    strand, strand1, adapter or unavailable; codes absent from the map do
    not make a chunk strand-like. *)
Theorem chunk_cached_iff_unfiltered_or_strand_like
    (uuid4 : nat -> string) (c : ReadUntil.client) (read_channel : Z)
    (read : ReadData) :
  ReadUntil.strand_classes c
    = ReadUntil.collect_strand_classes (ReadUntil.read_classes c) ->
  let c' := snd (ReadUntil.process_read uuid4 read_channel read c) in
  let strand :=
    exists code name,
      code ∈ chunk_classifications read
      /\ ReadUntil.read_classes c !! code = Some name
      /\ (name = "strand" \/ name = "strand1" \/ name = "adapter"
          \/ name = "unavailable") in
  (ReadUntil.strand_like c read = true <-> strand)
  /\ (ReadUntil.filter_strands c = false \/ strand ->
      ReadUntil.data_queue c'
      = snd (ReadCache.__setitem__ read_channel read (ReadUntil.data_queue c)))
  /\ (~ (ReadUntil.filter_strands c = false \/ strand) ->
      ReadUntil.data_queue c' = ReadUntil.data_queue c)
  /\ (1 <= ReadCache.size (ReadUntil.data_queue c) ->
      (ReadUntil.data_queue c' <> ReadUntil.data_queue c
       <-> ReadUntil.filter_strands c = false \/ strand))
  /\ ((forall code, code ∈ chunk_classifications read ->
                    ReadUntil.read_classes c !! code = None) ->
      ReadUntil.strand_like c read = false).
Proof.
  intros Hcls c' strand.
  assert (Hstrand : ReadUntil.strand_like c read = true <-> strand).
  { rewrite strand_like_true. unfold strand. split.
    - intros (code & Hin & Hs). rewrite Hcls in Hs.
      apply elem_of_collect_strand_classes in Hs as (name & Hl & Ha).
      exists code, name. by rewrite <- elem_of_allowed_classes.
    - intros (code & name & Hin & Hl & Ha). exists code. split; [done|].
      rewrite Hcls. apply elem_of_collect_strand_classes.
      exists name. by rewrite elem_of_allowed_classes. }
  assert (Hcond : negb (ReadUntil.filter_strands c)
                  || ReadUntil.strand_like c read = true
                  <-> ReadUntil.filter_strands c = false \/ strand).
  { rewrite orb_true_iff, negb_true_iff, Hstrand. tauto. }
  pose proof (process_read_data_queue uuid4 read_channel read c) as Hq.
  fold c' in Hq.
  split_and!.
  - done.
  - intros H%Hcond. by rewrite H in Hq.
  - intros H. rewrite <- Hcond in H. apply not_true_is_false in H.
    by rewrite H in Hq.
  - intros Hsz. rewrite <- Hcond.
    destruct (negb (ReadUntil.filter_strands c)
              || ReadUntil.strand_like c read); rewrite Hq.
    + split; [done|]. intros _. by apply setitem_changes_state.
    + split; [done|]. discriminate.
  - intros Habs. apply not_true_is_false. rewrite Hstrand.
    intros (code & name & Hin & Hl & _). rewrite (Habs code Hin) in Hl.
    discriminate.
Qed.


Lemma chunk_cached_iff_unfiltered_or_strand_like_witness :
  let read := mkReadData "read-a" 11 0 [] [83] in
  ReadUntil.strand_classes scenario_client
    = ReadUntil.collect_strand_classes (ReadUntil.read_classes scenario_client)
  /\ ReadUntil.data_queue
       (snd (ReadUntil.process_read (fun _ => "id") 4 read scenario_client))
     = snd (ReadCache.__setitem__ 4 read (ReadUntil.data_queue scenario_client)).
Proof.
  intros read. split; [reflexivity|].
  apply (proj1 (proj2 (chunk_cached_iff_unfiltered_or_strand_like
                         (fun _ => "id") scenario_client 4 read eq_refl))).
  right. exists 83, "strand". split_and!.
  - apply list_elem_of_singleton. reflexivity.
  - reflexivity.
  - by left.
Defined.

(** ** The outbound runner *)

Section runner_facts.
Import ReadUntil.





(** The requests of a run: the setup, then the batches of the loop. *)
Lemma runner_yields run_time first_channel last_channel min_chunk_size
    action_batch action_throttle t_start t_init queue env :
  yielded (events (_runner run_time first_channel last_channel
                     min_chunk_size action_batch action_throttle
                     t_start t_init queue env))
  = clamped_setup first_channel last_channel min_chunk_size
    :: yielded (events (runner_loop (t_start + run_time) action_batch
                          action_throttle t_init queue env)).
Proof.
  unfold _runner, clamped_setup. simpl events.
  destruct (Z.gtb_spec min_chunk_size ALLOWED_MIN_CHUNK_SIZE) as [Hgt|Hle];
    simpl.
  - by rewrite Z.min_r by lia.
  - by rewrite Z.min_l by lia.
Qed.

End runner_facts.

(** ** The runner with the message constructors and the rounded deadline *)

Section wire_runner_facts.
Variable StreamSetup_ok : Z -> Z -> Z -> bool.
Variable fadd : Q -> Q -> Q.

Lemma clamp_is_min (m : Z) :
  (if m >? ReadUntil.ALLOWED_MIN_CHUNK_SIZE
   then ReadUntil.ALLOWED_MIN_CHUNK_SIZE else m) = Z.min m 4000.
Proof.
  unfold ReadUntil.ALLOWED_MIN_CHUNK_SIZE.
  destruct (Z.gtb_spec m 4000); lia.
Qed.

(** The setup message is accepted: the run is the setup, then the loop
    with the rounded deadline. *)
Lemma wire_runner_accepted run_time first_channel last_channel min_chunk_size
    action_batch action_throttle t_start t_init queue env :
  StreamSetup_ok first_channel last_channel (Z.min min_chunk_size 4000) = true ->
  let r := Wire._runner StreamSetup_ok fadd run_time first_channel last_channel
             min_chunk_size action_batch action_throttle
             t_start t_init queue env in
  let rest := ReadUntil.runner_loop (fadd t_start run_time) action_batch
                action_throttle t_init queue env in
  Wire.raised r = None
  /\ ReadUntil.yielded (Wire.events r)
     = clamped_setup first_channel last_channel min_chunk_size
       :: ReadUntil.yielded (ReadUntil.events rest)
  /\ Wire.queue_left r = ReadUntil.queue_left rest
  /\ Wire.finished r = ReadUntil.finished rest.
Proof.
  intros Hok. unfold Wire._runner. rewrite clamp_is_min, Hok.
  unfold clamped_setup, ReadUntil.ALLOWED_MIN_CHUNK_SIZE.
  destruct (min_chunk_size >? 4000); simpl; split_and!; done.
Qed.



End wire_runner_facts.

(** With an exact sum and an accepted setup message the run is the one
    of [ReadUntil._runner]. *)
Lemma wire_runner_exact (StreamSetup_ok : Z -> Z -> Z -> bool)
    run_time first_channel last_channel min_chunk_size
    action_batch action_throttle t_start t_init queue env :
  StreamSetup_ok first_channel last_channel (Z.min min_chunk_size 4000) = true ->
  let r := Wire._runner StreamSetup_ok Qplus run_time first_channel
             last_channel min_chunk_size action_batch action_throttle
             t_start t_init queue env in
  let r0 := ReadUntil._runner run_time first_channel last_channel
              min_chunk_size action_batch action_throttle
              t_start t_init queue env in
  Wire.events r = ReadUntil.events r0
  /\ Wire.queue_left r = ReadUntil.queue_left r0
  /\ Wire.finished r = ReadUntil.finished r0
  /\ Wire.raised r = None.
Proof.
  intros Hok. rewrite <- clamp_is_min in Hok.
  unfold Wire._runner, ReadUntil._runner. rewrite Hok. simpl.
  split_and!; done.
Qed.







(** ** What does hold of the accounting

    No chunk is counted twice: the chunks accounted for never exceed the
    chunks that entered. *)

Lemma step_accounted (o : observation) (x : op) :
  1 <= ReadCache.size (cache o) -> cache_inv (cache o) ->
  accounted (step o x) - Z.of_nat (total_puts (step o x))
  <= accounted o - Z.of_nat (total_puts o).
Proof.
  intros Hsz [_ Hnd]. unfold accounted, ReadCache.__len__.
  destruct x as [key value|last|items last]; simpl.
  - destruct (evict_spec (ReadCache.size (cache o)) key value
                (ReadCache.dict (cache o)) false (ReadCache.missed (cache o))
                (ReadCache.replaced (cache o)) Hsz)
      as (pre & d' & m' & r' & He & Hd & _ & _ & _ & _ & _ & Hsum & _).
    assert (Hnd' : NoDup (OrderedDict.keys d')).
    { rewrite Hd, keys_app in Hnd. by apply NoDup_app in Hnd as (_ & _ & ?). }
    apply (f_equal length) in Hd. rewrite length_app in Hd.
    simpl in He.
    destruct (setitem_unfold _ _ _ _ _ _ _ He)
      as [[_ ->]|(p & old & q & -> & _ & ->)]; simpl.
    + rewrite length_app. simpl. lia.
    + apply keys_middle_NoDup in Hnd' as [_ Hk].
      rewrite setitem_fresh by done.
      rewrite !length_app in *. simpl in *.
      destruct pre as [|x pre]; simpl in *;
        [destruct (number old =? number value)|]; lia.
  - unfold ReadCache.popitem.
    destruct (OrderedDict.popitem last (ReadCache.dict (cache o)))
      as [[item d']|] eqn:E; simpl; [|lia].
    apply popitem_length in E. rewrite length_app. simpl. lia.
  - unfold ReadCache.popitems.
    destruct (popitems_loop_moves (Z.to_nat items) last
                (ReadCache.dict (cache o)) [])
      as (taken & d' & -> & Hl & _). simpl.
    rewrite length_app. lia.
Qed.

Lemma accounted_le_total_puts (N : Z) (ops : list op) :
  1 <= N ->
  accounted (run_ops ops (observe (ReadCache.mkState N [] 0 0)))
  <= Z.of_nat (total_puts (run_ops ops (observe (ReadCache.mkState N [] 0 0)))).
Proof.
  intros HN.
  assert (Hgen : forall o,
             ReadCache.size (cache o) = N -> cache_inv (cache o) ->
             accounted (run_ops ops o) - Z.of_nat (total_puts (run_ops ops o))
             <= accounted o - Z.of_nat (total_puts o)).
  { induction ops as [|x ops IH]; intros o Hsz Hinv; simpl; [lia|].
    destruct (step_inv N o x HN Hsz Hinv) as [Hs Hi].
    specialize (IH (step o x) Hs Hi).
    pose proof (step_accounted o x) as Hstep.
    rewrite Hsz in Hstep. specialize (Hstep HN Hinv). lia. }
  specialize (Hgen (observe (ReadCache.mkState N [] 0 0)) eq_refl).
  unfold accounted at 2 in Hgen. simpl in Hgen.
  assert (cache_inv (ReadCache.mkState N [] 0 0)).
  { split; [unfold ReadCache.__len__; simpl; lia | apply NoDup_nil_2]. }
  specialize (Hgen H). unfold ReadCache.__len__ in Hgen. simpl in Hgen. lia.
Qed.


(** * Further properties of the cache *)

Section lookup_facts.
Context {V : Type}.
Implicit Types (d : OrderedDict.t V) (key : Z) (value : V).

Lemma getitem_absent key d :
  key ∉ OrderedDict.keys d -> OrderedDict.getitem key d = None.
Proof.
  unfold OrderedDict.keys. induction d as [|[k v] d IH]; simpl; [done|].
  rewrite not_elem_of_cons. intros [Hne Hin].
  destruct (Z.eqb_spec k key); [congruence|]. by apply IH.
Qed.

Lemma getitem_app key d1 d2 :
  OrderedDict.getitem key (d1 ++ d2)
  = match OrderedDict.getitem key d1 with
    | Some v => Some v
    | None => OrderedDict.getitem key d2
    end.
Proof.
  induction d1 as [|[k v] d1 IH]; simpl; [done|].
  by destruct (k =? key).
Qed.

Lemma getitem_Some_keys key d v :
  OrderedDict.getitem key d = Some v -> key ∈ OrderedDict.keys d.
Proof.
  unfold OrderedDict.keys. induction d as [|[k w] d IH]; simpl; [done|].
  destruct (Z.eqb_spec k key) as [->|Hne].
  - intros _. apply elem_of_cons. by left.
  - intros H. apply elem_of_cons. right. by apply IH.
Qed.

End lookup_facts.

Section put_shape.
Import ReadCache.

(** The dict after a put: the loop drops a prefix [pre], the entry of the
    key (if any) leaves the remainder, and the new entry is the newest. *)
Lemma setitem_shape key value st :
  1 <= size st -> NoDup (OrderedDict.keys (dict st)) ->
  exists pre d' rest st',
    __setitem__ key value st = (Ok tt, st')
    /\ dict st = pre ++ d'
    /\ (__len__ st < size st -> pre = [])
    /\ dict st' = rest ++ [(key, value)]
    /\ (key ∉ OrderedDict.keys rest)
    /\ (forall k, k <> key ->
          OrderedDict.getitem k rest = OrderedDict.getitem k d')
    /\ (length rest <= length d')%nat.
Proof.
  intros Hsz Hnd.
  destruct (evict_spec (size st) key value (dict st) false (missed st)
              (replaced st) Hsz)
    as (pre & d' & m' & r' & He & Hd & _ & Hpre & _).
  assert (Hnd' : NoDup (OrderedDict.keys d')).
  { rewrite Hd, keys_app in Hnd. by apply NoDup_app in Hnd as (_ & _ & ?). }
  simpl in He.
  destruct (setitem_unfold _ _ _ _ _ _ _ He)
    as [[Hk ->]|(p & old & q & -> & Hp & ->)].
  - exists pre, d', d'. eexists. split_and!; try done.
  - destruct (keys_middle_NoDup _ _ _ _ Hnd') as [_ Hk].
    exists pre, (p ++ (key, old) :: q), (p ++ q). eexists.
    split_and!; try done.
    + simpl. by rewrite setitem_fresh.
    + intros k Hne. rewrite !getitem_app. simpl.
      destruct (Z.eqb_spec key k); [congruence|done].
    + rewrite !length_app. simpl. lia.
Qed.

End put_shape.

(** X1: on a cache of capacity at least one a put returns normally,
    and afterwards the channel is resident, its lookup gives the chunk that
    was put, and the newest entry is that channel with that chunk. *)
Theorem put_then_lookup (key : Z) (value : ReadData) (st : ReadCache.state) :
  1 <= ReadCache.size st ->
  NoDup (OrderedDict.keys (ReadCache.dict st)) ->
  let st' := snd (ReadCache.__setitem__ key value st) in
  fst (ReadCache.__setitem__ key value st) = Ok tt
  /\ OrderedDict.contains key (ReadCache.dict st') = true
  /\ fst (ReadCache.__getitem__ key st') = Ok value
  /\ fst (ReadCache.popitem true st') = Ok (key, value).
Proof.
  intros Hsz Hnd.
  destruct (setitem_shape key value st Hsz Hnd)
    as (pre & d' & rest & st' & -> & _ & _ & Hd & Hk & _). simpl.
  split_and!.
  - done.
  - apply contains_true. rewrite Hd, keys_app. apply elem_of_app. right.
    by apply list_elem_of_singleton.
  - unfold ReadCache.__getitem__. rewrite Hd, getitem_app.
    rewrite getitem_absent by done. simpl. by rewrite Z.eqb_refl.
  - unfold ReadCache.popitem. rewrite Hd. simpl.
    by rewrite (proj2 (pop_newest_Some (rest ++ [(key, value)]) _ _) eq_refl).
Qed.

Lemma put_then_lookup_witness :
  let st := ReadCache.mkState 2 [(1, chunk 5); (2, chunk 7)] 0 0 in
  let st' := snd (ReadCache.__setitem__ 3 (chunk 9) st) in
  fst (ReadCache.__setitem__ 3 (chunk 9) st) = Ok tt
  /\ OrderedDict.contains 3 (ReadCache.dict st') = true
  /\ fst (ReadCache.__getitem__ 3 st') = Ok (chunk 9)
  /\ fst (ReadCache.popitem true st') = Ok (3, chunk 9).
Proof.
  intros st. apply (put_then_lookup 3 (chunk 9) st); [simpl; lia|].
  apply (bool_decide_unpack _). by vm_compute.
Defined.

(** X2: below capacity a put touches its own channel only: the
    lookup of every other channel gives what it gave before, and the
    number of entries grows by one exactly when the channel was absent. *)
Theorem put_below_capacity_keeps_other_channels
    (key k : Z) (value : ReadData) (st : ReadCache.state) :
  ReadCache.__len__ st < ReadCache.size st ->
  NoDup (OrderedDict.keys (ReadCache.dict st)) ->
  k <> key ->
  let st' := snd (ReadCache.__setitem__ key value st) in
  fst (ReadCache.__getitem__ k st') = fst (ReadCache.__getitem__ k st)
  /\ ReadCache.__len__ st'
     = ReadCache.__len__ st
       + (if OrderedDict.contains key (ReadCache.dict st) then 0 else 1).
Proof.
  unfold ReadCache.__len__. intros Hlen Hnd Hne.
  pose proof (evict_below (ReadCache.size st) key value (ReadCache.dict st)
                false (ReadCache.missed st) (ReadCache.replaced st) Hlen) as He.
  destruct (setitem_unfold _ _ _ _ _ _ _ He)
    as [[Hk ->]|(p & old & q & Hd & Hp & ->)]; simpl.
  - apply contains_false in Hk. rewrite Hk.
    unfold ReadCache.__getitem__. simpl. rewrite getitem_app, length_app.
    simpl. destruct (Z.eqb_spec key k); [congruence|].
    split; [|lia].
    by destruct (OrderedDict.getitem k (ReadCache.dict st)).
  - rewrite Hd in Hnd |- *. apply keys_middle_NoDup in Hnd as [_ Hk].
    rewrite setitem_fresh by done.
    assert (Hc : OrderedDict.contains key (p ++ (key, old) :: q) = true).
    { apply contains_true. rewrite keys_app. apply elem_of_app. right.
      apply elem_of_cons. by left. }
    rewrite Hc. unfold ReadCache.__getitem__. simpl.
    rewrite Hd, !getitem_app, !length_app. simpl.
    destruct (Z.eqb_spec key k); [congruence|].
    split; [|simpl; lia].
    destruct (OrderedDict.getitem k p); [done|].
    by destruct (OrderedDict.getitem k q).
Qed.

Lemma put_below_capacity_keeps_other_channels_witness :
  let st := ReadCache.mkState 3 [(1, chunk 5); (2, chunk 7)] 0 0 in
  let st' := snd (ReadCache.__setitem__ 2 (chunk 8) st) in
  fst (ReadCache.__getitem__ 1 st') = fst (ReadCache.__getitem__ 1 st)
  /\ ReadCache.__len__ st'
     = ReadCache.__len__ st
       + (if OrderedDict.contains 2 (ReadCache.dict st) then 0 else 1).
Proof.
  intros st.
  apply (put_below_capacity_keeps_other_channels 2 1 (chunk 8) st).
  - unfold ReadCache.__len__. simpl. lia.
  - apply (bool_decide_unpack _). by vm_compute.
  - lia.
Defined.

(** X3: [del cache[key]] of an absent channel raises KeyError and
    leaves the cache as it was.  Of a resident channel it returns normally,
    the channel is gone, there is one entry less, every other channel
    still gives the same chunk, and the counters and the capacity stay. *)
Theorem delitem_removes_only_its_channel (key : Z) (st : ReadCache.state) :
  NoDup (OrderedDict.keys (ReadCache.dict st)) ->
  (OrderedDict.contains key (ReadCache.dict st) = false ->
   ReadCache.__delitem__ key st = (Raise KeyError, st))
  /\ (OrderedDict.contains key (ReadCache.dict st) = true ->
      let st' := snd (ReadCache.__delitem__ key st) in
      fst (ReadCache.__delitem__ key st) = Ok tt
      /\ OrderedDict.contains key (ReadCache.dict st') = false
      /\ ReadCache.__len__ st' = ReadCache.__len__ st - 1
      /\ (forall k, k <> key ->
            OrderedDict.getitem k (ReadCache.dict st')
            = OrderedDict.getitem k (ReadCache.dict st))
      /\ ReadCache.missed st' = ReadCache.missed st
      /\ ReadCache.replaced st' = ReadCache.replaced st
      /\ ReadCache.size st' = ReadCache.size st).
Proof.
  intros Hnd. unfold ReadCache.__delitem__, ReadCache.__len__. split.
  - intros Hc%contains_false. by rewrite delitem_absent.
  - intros Hc%contains_true.
    destruct (delitem_resident key _ Hc) as (p & old & q & Hd & Hp & _ & ->).
    simpl. rewrite Hd in Hnd |- *.
    apply keys_middle_NoDup in Hnd as [_ Hk].
    split_and!; try done.
    + by apply contains_false.
    + rewrite !length_app. simpl. lia.
    + intros k Hne. rewrite !getitem_app. simpl.
      destruct (Z.eqb_spec key k); [congruence|done].
Qed.

Lemma delitem_removes_only_its_channel_witness :
  let st := ReadCache.mkState 3 [(1, chunk 5); (2, chunk 7)] 4 6 in
  (OrderedDict.contains 9 (ReadCache.dict st) = false ->
   ReadCache.__delitem__ 9 st = (Raise KeyError, st))
  /\ (OrderedDict.contains 1 (ReadCache.dict st) = true ->
      ReadCache.__len__ (snd (ReadCache.__delitem__ 1 st))
      = ReadCache.__len__ st - 1).
Proof.
  intros st.
  assert (Hnd : NoDup (OrderedDict.keys (ReadCache.dict st)))
    by (apply (bool_decide_unpack _); by vm_compute).
  split.
  - exact (proj1 (delitem_removes_only_its_channel 9 st Hnd)).
  - intros Hc.
    exact (proj1 (proj2 (proj2
             (proj2 (delitem_removes_only_its_channel 1 st Hnd) Hc)))).
Defined.

(** X4: a batch pop returns normally for every count and every
    cache.  With [last = False] it returns the first [min(items, len)]
    entries in insertion order and leaves the later ones; with
    [last = True] it returns the last [min(items, len)] entries, newest
    first, and leaves the earlier ones.  Counters and capacity stay. *)
Theorem popitems_takes_from_the_named_end
    (items : Z) (last : bool) (st : ReadCache.state) :
  let n := Z.to_nat items in
  let d := ReadCache.dict st in
  ReadCache.popitems items last st
  = (Ok (if last then reverse (drop (length d - n) d) else take n d),
     ReadCache.mkState (ReadCache.size st)
       (if last then take (length d - n) d else drop n d)
       (ReadCache.missed st) (ReadCache.replaced st))
  /\ length (if last then reverse (drop (length d - n) d) else take n d)
     = Nat.min n (length d).
Proof.
  intros n d. unfold ReadCache.popitems. fold n d. destruct last.
  - rewrite popitems_loop_newest. simpl.
    rewrite take_reverse, drop_reverse, reverse_involutive.
    split; [done|]. rewrite length_reverse, length_drop. lia.
  - rewrite popitems_loop_oldest. simpl. split; [done|]. apply length_take.
Qed.

Section batch_composition.
Import ReadCache.

Lemma popitems_loop_acc n last d data :
  popitems_loop n last d data
  = (data ++ fst (popitems_loop n last d []), snd (popitems_loop n last d [])).
Proof.
  destruct last.
  - rewrite !popitems_loop_newest. done.
  - rewrite !popitems_loop_oldest. done.
Qed.

Lemma popitems_loop_add n m last d data :
  popitems_loop (n + m) last d data
  = popitems_loop m last (snd (popitems_loop n last d data))
                  (fst (popitems_loop n last d data)).
Proof.
  revert d data. induction n as [|n IH]; intros d data; simpl; [done|].
  destruct (OrderedDict.popitem last d) as [[item d1]|]; apply IH.
Qed.

End batch_composition.

(** X5: two batch pops in a row from the same end give what one
    batch pop of the summed count gives: the two batches, concatenated,
    are the one batch, and the cache they leave is the same. *)
Theorem popitems_compose (a b : Z) (last : bool) (st : ReadCache.state) :
  0 <= a -> 0 <= b ->
  exists data1 data2 st1 st2,
    ReadCache.popitems a last st = (Ok data1, st1)
    /\ ReadCache.popitems b last st1 = (Ok data2, st2)
    /\ ReadCache.popitems (a + b) last st = (Ok (data1 ++ data2), st2).
Proof.
  intros Ha Hb. unfold ReadCache.popitems.
  rewrite Z2Nat.inj_add by done. rewrite popitems_loop_add.
  destruct (ReadCache.popitems_loop (Z.to_nat a) last (ReadCache.dict st) [])
    as [data1 d1] eqn:E1. simpl.
  rewrite (popitems_loop_acc (Z.to_nat b) last d1 data1).
  destruct (ReadCache.popitems_loop (Z.to_nat b) last d1 [])
    as [data2 d2] eqn:E2. simpl.
  eexists _, _, _, _. split_and!; [reflexivity| |reflexivity].
  simpl. by rewrite E2.
Qed.

Lemma popitems_compose_witness :
  let st := ReadCache.mkState 3 [(1, chunk 5); (2, chunk 7); (3, chunk 9)] 0 0 in
  exists data1 data2 st1 st2,
    ReadCache.popitems 1 true st = (Ok data1, st1)
    /\ ReadCache.popitems 1 true st1 = (Ok data2, st2)
    /\ ReadCache.popitems (1 + 1) true st = (Ok (data1 ++ data2), st2).
Proof. intros st. apply (popitems_compose 1 1 true st); lia. Defined.

(** X6: when the channel is absent and the cache is below capacity,
    a put followed by a pop of the newest entry gives back the channel and
    the chunk that was put and leaves the cache exactly as it was before
    the put, counters included. *)
Theorem put_then_pop_newest_restores
    (key : Z) (value : ReadData) (st : ReadCache.state) :
  ReadCache.__len__ st < ReadCache.size st ->
  OrderedDict.contains key (ReadCache.dict st) = false ->
  ReadCache.popitem true (snd (ReadCache.__setitem__ key value st))
  = (Ok (key, value), st).
Proof.
  unfold ReadCache.__len__. intros Hlen Hc.
  pose proof (evict_below (ReadCache.size st) key value (ReadCache.dict st)
                false (ReadCache.missed st) (ReadCache.replaced st) Hlen) as He.
  destruct (setitem_unfold _ _ _ _ _ _ _ He)
    as [[Hk ->]|(p & old & q & Hd & Hp & _)].
  - unfold ReadCache.popitem. simpl.
    rewrite (proj2 (pop_newest_Some (ReadCache.dict st ++ [(key, value)])
                      _ _) eq_refl).
    by destruct st.
  - apply contains_false in Hc. exfalso. apply Hc.
    rewrite Hd, keys_app. apply elem_of_app. right. apply elem_of_cons.
    by left.
Qed.

Lemma put_then_pop_newest_restores_witness :
  let st := ReadCache.mkState 3 [(1, chunk 5); (2, chunk 7)] 4 6 in
  ReadCache.popitem true (snd (ReadCache.__setitem__ 3 (chunk 9) st))
  = (Ok (3, chunk 9), st).
Proof.
  intros st. apply (put_then_pop_newest_restores 3 (chunk 9) st).
  - unfold ReadCache.__len__. simpl. lia.
  - reflexivity.
Defined.

(** ** Accounting over sequences of operations *)

Section accounting_runs.
Import ReadCache.

Lemma popitems_loop_keys n last d data :
  forall k, k ∈ OrderedDict.keys (snd (popitems_loop n last d data)) ->
            k ∈ OrderedDict.keys d.
Proof.
  revert d data. induction n as [|n IH]; intros d data k; simpl; [done|].
  destruct (OrderedDict.popitem last d) as [[item d1]|] eqn:E; [|apply IH].
  intros Hk%IH. apply popitem_Some in E. subst d. destruct last.
  - rewrite keys_app. apply elem_of_app. by left.
  - unfold OrderedDict.keys. rewrite fmap_cons. apply elem_of_cons. by right.
Qed.

Lemma roomy_below N K o :
  Z.of_nat (length K) < N -> roomy N K o -> __len__ (cache o) < size (cache o).
Proof.
  intros HK (Hs & Hnd & Hsub & _). unfold __len__. rewrite Hs.
  pose proof (submseteq_length _ _ (NoDup_submseteq _ _ Hnd Hsub)) as Hle.
  unfold OrderedDict.keys in Hle. rewrite length_fmap in Hle. lia.
Qed.

Lemma step_roomy N K o x :
  Z.of_nat (length K) < N ->
  (forall k, k ∈ put_keys [x] -> k ∈ K) ->
  roomy N K o -> roomy N K (step o x).
Proof.
  intros HK Hx Hr. pose proof (roomy_below N K o HK Hr) as Hlen.
  destruct Hr as (Hs & Hnd & Hsub & Hacc).
  unfold roomy, accounted, __len__ in *.
  destruct x as [key value|last|items last]; simpl.
  - pose proof (evict_below (size (cache o)) key value (dict (cache o))
                  false (missed (cache o)) (replaced (cache o)) Hlen) as He.
    assert (HkK : key ∈ K) by (apply Hx; simpl; apply elem_of_cons; by left).
    destruct (setitem_unfold _ _ _ _ _ _ _ He)
      as [[Hk ->]|(p & old & q & Hd & Hp & ->)]; simpl.
    + split_and!; try done.
      * rewrite keys_app. apply NoDup_app. split_and!; try done.
        -- intros y Hy ->%list_elem_of_singleton. done.
        -- apply NoDup_singleton.
      * intros k. rewrite keys_app, elem_of_app.
        intros [?| ->%list_elem_of_singleton]; [by apply Hsub | done].
      * rewrite length_app. simpl. lia.
    + rewrite Hd in Hnd, Hsub, Hacc.
      destruct (keys_middle_NoDup _ _ _ _ Hnd) as [Hpq Hk].
      rewrite setitem_fresh by done.
      split_and!; try done.
      * rewrite keys_app. apply NoDup_app. split_and!; try done.
        -- intros y Hy ->%list_elem_of_singleton. done.
        -- apply NoDup_singleton.
      * intros k. rewrite keys_app, elem_of_app.
        intros [Hin| ->%list_elem_of_singleton]; [|done].
        apply Hsub. rewrite keys_app in Hin |- *.
        apply elem_of_app in Hin as [?|?]; apply elem_of_app;
          [by left | right; apply elem_of_cons; by right].
      * rewrite !length_app in *. simpl in *.
        destruct (number old =? number value); lia.
  - unfold popitem.
    destruct (OrderedDict.popitem last (dict (cache o)))
      as [[item d']|] eqn:E; simpl; [|done].
    pose proof (popitem_length _ _ _ _ E).
    pose proof (popitem_NoDup _ _ _ _ E Hnd).
    split_and!; try done.
    + intros k Hk. apply Hsub. apply popitem_Some in E. rewrite E.
      destruct last.
      * rewrite keys_app. apply elem_of_app. by left.
      * unfold OrderedDict.keys. rewrite fmap_cons. apply elem_of_cons.
        by right.
    + rewrite length_app. simpl. lia.
  - unfold popitems.
    pose proof (popitems_loop_keys (Z.to_nat items) last (dict (cache o)) [])
      as Hkeys.
    destruct (popitems_loop_moves (Z.to_nat items) last (dict (cache o)) [])
      as (taken & d' & Hloop & Hl & _ & Hnd' & _).
    rewrite Hloop in Hkeys |- *. simpl in *.
    split_and!; try done.
    + by apply Hnd'.
    + intros k Hk. by apply Hsub, Hkeys.
    + rewrite length_app. lia.
Qed.

Lemma run_ops_roomy N K ops o :
  Z.of_nat (length K) < N ->
  (forall k, k ∈ put_keys ops -> k ∈ K) ->
  roomy N K o -> roomy N K (run_ops ops o).
Proof.
  intros HK. revert o. induction ops as [|x ops IH]; intros o Hops Hr; [done|].
  simpl. apply IH.
  - intros k Hk. apply Hops. destruct x; simpl; try done.
    apply elem_of_cons. by right.
  - apply step_roomy; [done| |done].
    intros k Hk. apply Hops. destruct x; simpl in *; try done.
    + apply elem_of_cons. left. by apply list_elem_of_singleton in Hk.
    + by apply elem_of_nil in Hk.
    + by apply elem_of_nil in Hk.
Qed.

Lemma run_ops_counters N ops o :
  1 <= N -> size (cache o) = N -> cache_inv (cache o) ->
  missed (cache o) <= missed (cache (run_ops ops o))
  /\ replaced (cache o) <= replaced (cache (run_ops ops o))
  /\ missed (cache (run_ops ops o)) + replaced (cache (run_ops ops o))
     <= missed (cache o) + replaced (cache o)
        + Z.of_nat (length (put_keys ops)).
Proof.
  intros HN. revert o. induction ops as [|x ops IH]; intros o Hs Hinv.
  - simpl. lia.
  - destruct (step_inv N o x HN Hs Hinv) as [Hs' Hinv'].
    specialize (IH (step o x) Hs' Hinv'). simpl run_ops.
    assert (Hstep : missed (cache o) <= missed (cache (step o x))
              /\ replaced (cache o) <= replaced (cache (step o x))
              /\ missed (cache (step o x)) + replaced (cache (step o x))
                 <= missed (cache o) + replaced (cache o)
                    + Z.of_nat (length (put_keys [x]))).
    { destruct x as [key value|last|items last]; simpl.
      - assert (Hlen : __len__ (cache o) <= size (cache o)) by apply Hinv.
        pose proof (setitem_counters key value (cache o) Hlen) as Hc.
        simpl in Hc.
        by destruct (__setitem__ key value (cache o)) as [[[]|e] c]; simpl in *;
          lia.
      - pose proof (popitem_counters last (cache o)) as [Hm Hr].
        destruct (popitem last (cache o)) as [[item|e] c]; simpl in *; lia.
      - pose proof (popitems_counters items last (cache o)) as [Hm Hr].
        destruct (popitems items last (cache o)) as [[data|e] c];
          simpl in *; lia. }
    assert (length (put_keys (x :: ops))
            = (length (put_keys [x]) + length (put_keys ops))%nat) as ->
      by (by destruct x).
    lia.
Qed.

End accounting_runs.

(** X7: when all puts of a sequence use channels of a list [K]
    that has fewer channels than the capacity [N], conservation is exact at
    every observation point: missed + replaced + delivered + resident
    equals the number of puts. *)
Theorem conservation_exact_with_spare_capacity
    (N : Z) (K : list Z) (ops : list op) :
  Z.of_nat (length K) < N ->
  (forall k, k ∈ put_keys ops -> k ∈ K) ->
  exists c0,
    ReadCache.__init__ N = Ok c0
    /\ accounted (run_ops ops (observe c0))
       = Z.of_nat (total_puts (run_ops ops (observe c0))).
Proof.
  intros HK Hops. unfold ReadCache.__init__.
  destruct (Z.ltb_spec N 1) as [?|_]; [lia|].
  eexists. split; [reflexivity|].
  apply (run_ops_roomy N K ops _ HK Hops).
  unfold roomy, accounted, ReadCache.__len__. simpl.
  split_and!; try done.
  - apply NoDup_nil_2.
  - by intros k ?%elem_of_nil.
Qed.

Lemma conservation_exact_with_spare_capacity_witness :
  exists c0,
    ReadCache.__init__ 3 = Ok c0
    /\ accounted (run_ops [Put 1 (chunk 5); Put 2 (chunk 7); Put 2 (chunk 7);
                           PopItem true; Put 1 (chunk 6)] (observe c0))
       = Z.of_nat (total_puts
                     (run_ops [Put 1 (chunk 5); Put 2 (chunk 7);
                               Put 2 (chunk 7); PopItem true; Put 1 (chunk 6)]
                              (observe c0))).
Proof.
  apply (conservation_exact_with_spare_capacity 3 [1; 2]).
  - simpl. lia.
  - intros k Hk. simpl in Hk. rewrite !elem_of_cons in Hk. rewrite !elem_of_cons.
    destruct Hk as [->|[->|[->|[->|Hk]]]]; try (by left); try (by right; left).
    by apply elem_of_nil in Hk.
Defined.

(** X8: from a cache built with capacity [N >= 1], after every
    sequence of puts and pops no chunk is counted twice: missed + replaced
    + delivered + resident never exceeds the number of puts. *)
Theorem accounted_never_exceeds_puts (N : Z) (ops : list op) :
  1 <= N ->
  exists c0,
    ReadCache.__init__ N = Ok c0
    /\ accounted (run_ops ops (observe c0))
       <= Z.of_nat (total_puts (run_ops ops (observe c0))).
Proof.
  intros HN. unfold ReadCache.__init__.
  destruct (Z.ltb_spec N 1) as [?|_]; [lia|].
  eexists. split; [reflexivity|]. by apply accounted_le_total_puts.
Qed.

Lemma accounted_never_exceeds_puts_witness :
  exists c0,
    ReadCache.__init__ 2 = Ok c0
    /\ accounted (run_ops [Put 1 (chunk 5); Put 2 (chunk 7); Put 2 (chunk 7)]
                          (observe c0))
       <= Z.of_nat (total_puts
                      (run_ops [Put 1 (chunk 5); Put 2 (chunk 7);
                                Put 2 (chunk 7)] (observe c0))).
Proof. apply (accounted_never_exceeds_puts 2); lia. Defined.

(** X9: over every sequence of puts and pops on a cache of capacity
    [N >= 1] that satisfies the invariant, neither counter ever goes down,
    and missed + replaced grows by at most the number of puts of the
    sequence. *)
Theorem counters_grow_by_at_most_the_puts
    (N : Z) (ops : list op) (o : observation) :
  1 <= N -> ReadCache.size (cache o) = N -> cache_inv (cache o) ->
  ReadCache.missed (cache o) <= ReadCache.missed (cache (run_ops ops o))
  /\ ReadCache.replaced (cache o) <= ReadCache.replaced (cache (run_ops ops o))
  /\ ReadCache.missed (cache (run_ops ops o))
     + ReadCache.replaced (cache (run_ops ops o))
     <= ReadCache.missed (cache o) + ReadCache.replaced (cache o)
        + Z.of_nat (length (put_keys ops)).
Proof. apply run_ops_counters. Qed.

Lemma counters_grow_by_at_most_the_puts_witness :
  let o := observe (ReadCache.mkState 2 [(1, chunk 5)] 3 4) in
  let ops := [Put 2 (chunk 7); PopItems 1 false; Put 3 (chunk 9);
              Put 3 (chunk 9)] in
  ReadCache.missed (cache o) <= ReadCache.missed (cache (run_ops ops o))
  /\ ReadCache.replaced (cache o) <= ReadCache.replaced (cache (run_ops ops o))
  /\ ReadCache.missed (cache (run_ops ops o))
     + ReadCache.replaced (cache (run_ops ops o))
     <= ReadCache.missed (cache o) + ReadCache.replaced (cache o)
        + Z.of_nat (length (put_keys ops)).
Proof.
  intros o ops. apply (counters_grow_by_at_most_the_puts 2 ops o).
  - lia.
  - reflexivity.
  - split.
    + unfold ReadCache.__len__. simpl. lia.
    + apply (bool_decide_unpack _). by vm_compute.
Defined.


(** * Further properties of the client *)

Section action_facts.
Import ReadUntil.
Variable uuid4 : nat -> string.

(** The queue and the identifier count after [_put_action]. *)
Lemma put_action_spec ch n action (c : client) :
  let a k := mkAction (uuid4 (uuids_drawn c)) ch n k in
  let c' := snd (_put_action uuid4 ch n action c) in
  uuids_drawn c' = S (uuids_drawn c)
  /\ data_queue c' = data_queue c
  /\ one_chunk c' = one_chunk c
  /\ filter_strands c' = filter_strands c
  /\ strand_classes c' = strand_classes c
  /\ (action = "stop_further_data" ->
      fst (_put_action uuid4 ch n action c) = Ok tt
      /\ action_queue c' = action_queue c ++ [a StopFurtherData])
  /\ (action = "unblock" ->
      fst (_put_action uuid4 ch n action c) = Ok tt
      /\ action_queue c' = action_queue c ++ [a UnblockAction])
  /\ (action <> "stop_further_data" -> action <> "unblock" ->
      fst (_put_action uuid4 ch n action c) = Raise ValueError
      /\ action_queue c' = action_queue c).
Proof.
  intros a c'. unfold c', _put_action.
  destruct (String.eqb_spec action "stop_further_data") as [->|Hs].
  - simpl. split_and!; try done.
  - destruct (String.eqb_spec action "unblock") as [->|Hu].
    + simpl. split_and!; try done.
    + simpl. split_and!; try done.
Qed.

(** [process_read] in one equation: the stop request of the one-chunk
    policy, then the filter and the cache. *)
Lemma process_read_spec ch read (c : client) :
  process_read uuid4 ch read c
  = let c1 :=
      if one_chunk c
      then mkClient (cache_size c) (filter_strands c) (one_chunk c)
             (read_classes c) (strand_classes c)
             (action_queue c
              ++ [mkAction (uuid4 (uuids_drawn c)) ch (number read)
                           StopFurtherData])
             (data_queue c) (S (uuids_drawn c))
      else c in
    if negb (filter_strands c) || strand_like c read
    then store ch read c1 else (Ok tt, c1).
Proof.
  unfold process_read, stop_receiving_read, _put_action. simpl.
  destruct (one_chunk c); reflexivity.
Qed.

Lemma stop_requests_cons drawn ch read channels :
  stop_requests uuid4 drawn ((ch, read) :: channels)
  = mkAction (uuid4 drawn) ch (number read) StopFurtherData
    :: stop_requests uuid4 (S drawn) channels.
Proof.
  unfold stop_requests. rewrite imap_cons. simpl. rewrite Nat.add_0_r.
  f_equal. apply imap_ext. intros i [k v] _. simpl.
  by rewrite Nat.add_succ_r.
Qed.

(** A whole inbound message on a client whose cache is valid. *)
Lemma process_channels_spec channels (c : client) :
  1 <= ReadCache.size (data_queue c) -> cache_inv (data_queue c) ->
  let c' := snd (process_channels uuid4 channels c) in
  fst (process_channels uuid4 channels c) = Ok tt
  /\ cache_inv (data_queue c')
  /\ ReadCache.size (data_queue c') = ReadCache.size (data_queue c)
  /\ action_queue c'
     = action_queue c
       ++ (if one_chunk c
           then stop_requests uuid4 (uuids_drawn c) channels else [])
  /\ uuids_drawn c'
     = (uuids_drawn c + (if one_chunk c then length channels else 0))%nat
  /\ one_chunk c' = one_chunk c
  /\ filter_strands c' = filter_strands c
  /\ strand_classes c' = strand_classes c.
Proof.
  revert c. induction channels as [|[ch read] channels IH]; intros c Hsz Hinv.
  - simpl. destruct (one_chunk c); rewrite app_nil_r, Nat.add_0_r;
      split_and!; done.
  - simpl process_channels. rewrite process_read_spec. cbv zeta.
    set (c1 := if one_chunk c then _ else c).
    assert (Hc1 : data_queue c1 = data_queue c /\ one_chunk c1 = one_chunk c
                  /\ filter_strands c1 = filter_strands c
                  /\ strand_classes c1 = strand_classes c).
    { unfold c1. destruct (one_chunk c) eqn:E; simpl; split_and!; done. }
    destruct Hc1 as (Hq1 & Ho1 & Hf1 & Hs1).
    assert (Hnext : exists c2,
               (if negb (filter_strands c) || strand_like c read
                then store ch read c1 else (Ok tt, c1)) = (Ok tt, c2)
               /\ cache_inv (data_queue c2)
               /\ ReadCache.size (data_queue c2) = ReadCache.size (data_queue c)
               /\ action_queue c2 = action_queue c1
               /\ uuids_drawn c2 = uuids_drawn c1
               /\ one_chunk c2 = one_chunk c
               /\ filter_strands c2 = filter_strands c
               /\ strand_classes c2 = strand_classes c).
    { destruct (negb (filter_strands c) || strand_like c read).
      - unfold store. rewrite Hq1.
        destruct (setitem_inv ch read (data_queue c) Hsz (proj2 Hinv))
          as (st' & -> & Hs' & Hi').
        eexists. split; [reflexivity|]. simpl. split_and!; done.
      - exists c1. rewrite Hq1. split_and!; done. }
    destruct Hnext as (c2 & -> & Hi2 & Hs2 & Hq2 & Hu2 & Ho2 & Hf2 & Hc2).
    rewrite <- Hs2 in Hsz.
    destruct (IH c2 Hsz Hi2) as (Hr & Hi & Hs & Hq & Hu & Ho & Hf & Hc).
    simpl. rewrite Hr, Hq, Hu, Hq2, Hu2, Ho2, Ho, Hf, Hc.
    split_and!; try done; try congruence.
    + unfold c1. destruct (one_chunk c); simpl.
      * by rewrite stop_requests_cons, <- app_assoc.
      * done.
    + unfold c1. destruct (one_chunk c); simpl; lia.
Qed.

Hypothesis uuid4_inj : forall m n, uuid4 m = uuid4 n -> m = n.

Lemma ids_issued_enqueue (c c' : client) ch n k :
  action_queue c'
    = action_queue c ++ [mkAction (uuid4 (uuids_drawn c)) ch n k] ->
  uuids_drawn c' = S (uuids_drawn c) ->
  ids_issued uuid4 c -> ids_issued uuid4 c'.
Proof.
  intros Hq Hu [Hall Hnd]. unfold ids_issued. rewrite Hq, Hu. split.
  - apply Forall_app. split.
    + eapply Forall_impl; [exact Hall|]. intros a (i & Hi & Ha).
      exists i. split; [lia | done].
    + apply Forall_singleton. exists (uuids_drawn c). split; [lia | done].
  - rewrite fmap_app. apply NoDup_app. split_and!; [done| |apply NoDup_singleton].
    intros x Hx Hx'. apply list_elem_of_singleton in Hx'. simpl in Hx'. subst x.
    apply list_elem_of_fmap in Hx as (a & Ha & Hin).
    rewrite Forall_forall in Hall. destruct (Hall a Hin) as (i & Hi & Hai).
    rewrite Hai in Ha. apply uuid4_inj in Ha. lia.
Qed.

Lemma ids_issued_same_queue (c c' : client) :
  action_queue c' = action_queue c ->
  (uuids_drawn c <= uuids_drawn c')%nat ->
  ids_issued uuid4 c -> ids_issued uuid4 c'.
Proof.
  intros Hq Hu [Hall Hnd]. unfold ids_issued. rewrite Hq. split; [|done].
  eapply Forall_impl; [exact Hall|]. intros a (i & Hi & Ha).
  exists i. split; [lia | done].
Qed.

Lemma put_action_ids ch n action (c : client) :
  ids_issued uuid4 c ->
  ids_issued uuid4 (snd (_put_action uuid4 ch n action c)).
Proof.
  intros Hc.
  destruct (put_action_spec ch n action c)
    as (Hu & _ & _ & _ & _ & Hstop & Hunb & Hbad).
  destruct (decide (action = "stop_further_data")) as [Hs|Hs].
  - destruct (Hstop Hs) as [_ Hq]. by eapply ids_issued_enqueue.
  - destruct (decide (action = "unblock")) as [Hb|Hb].
    + destruct (Hunb Hb) as [_ Hq]. by eapply ids_issued_enqueue.
    + destruct (Hbad Hs Hb) as [_ Hq].
      eapply ids_issued_same_queue; [exact Hq | lia | done].
Qed.

Lemma process_read_ids ch read (c : client) :
  ids_issued uuid4 c ->
  ids_issued uuid4 (snd (process_read uuid4 ch read c)).
Proof.
  intros Hc. rewrite process_read_spec. cbv zeta.
  set (c1 := if one_chunk c then _ else c).
  assert (Hc1 : ids_issued uuid4 c1).
  { unfold c1. destruct (one_chunk c); [|done].
    by eapply ids_issued_enqueue. }
  destruct (negb (filter_strands c) || strand_like c read); [|done].
  unfold store.
  destruct (ReadCache.__setitem__ ch read (data_queue c1)) as [r q]. simpl.
  by eapply ids_issued_same_queue.
Qed.

Lemma process_channels_ids channels (c : client) :
  ids_issued uuid4 c ->
  ids_issued uuid4 (snd (process_channels uuid4 channels c)).
Proof.
  revert c. induction channels as [|[ch read] channels IH]; intros c Hc;
    simpl; [done|].
  pose proof (process_read_ids ch read c Hc) as H1.
  destruct (process_read uuid4 ch read c) as [[[]|e] c1]; simpl in *; [|done].
  by apply IH.
Qed.

Lemma client_run_ids ops (c : client) :
  ids_issued uuid4 c -> ids_issued uuid4 (client_run uuid4 ops c).
Proof.
  revert c. induction ops as [|x ops IH]; intros c Hc; simpl; [done|].
  apply IH. destruct x; unfold client_step.
  - by apply put_action_ids.
  - by apply put_action_ids.
  - by apply put_action_ids.
  - by apply process_channels_ids.
  - unfold get_read_chunks.
    destruct (ReadCache.popitems batch_size true (data_queue c)) as [r q].
    simpl. by eapply ids_issued_same_queue.
Qed.

End action_facts.

Section wire_action_facts.
Variable Action_ok : Z -> Z -> bool.
Variable uuid4 : nat -> string.

(** When the constructor accepts the fields, the method is
    [ReadUntil._put_action]. *)
Lemma wire_put_action_accepted ch n action (c : ReadUntil.client) :
  Action_ok ch n = true ->
  Wire._put_action Action_ok uuid4 ch n action c
  = ReadUntil._put_action uuid4 ch n action c.
Proof.
  intros Hok. unfold Wire._put_action, ReadUntil._put_action. by rewrite Hok.
Qed.

(** Any exception of the method is ValueError and leaves both queues. *)
Lemma wire_put_action_raises ch n action (c : ReadUntil.client) :
  Action_ok ch n = false
  \/ (action <> "stop_further_data" /\ action <> "unblock") ->
  fst (Wire._put_action Action_ok uuid4 ch n action c) = Raise ValueError
  /\ ReadUntil.action_queue (snd (Wire._put_action Action_ok uuid4 ch n action c))
     = ReadUntil.action_queue c
  /\ ReadUntil.data_queue (snd (Wire._put_action Action_ok uuid4 ch n action c))
     = ReadUntil.data_queue c.
Proof.
  unfold Wire._put_action.
  destruct (String.eqb_spec action "stop_further_data") as [->|Hs];
    [|destruct (String.eqb_spec action "unblock") as [->|Hu]].
  - intros [->|[? _]]; done.
  - intros [->|[_ ?]]; done.
  - done.
Qed.

End wire_action_facts.

(** X10: [_put_action] queues a request only when the action is
    "stop_further_data" or "unblock" and the constructor of the Action
    message accepts the channel and the read number: then it returns
    normally and appends one request of that kind, for that channel and
    read number, at the end of the action queue.  With a channel or read
    number that the constructor refuses, or with any other action, it
    raises ValueError and leaves the queue as it was.  The cache is never
    touched. *)
Theorem put_action_enqueues_or_raises
    (Action_ok : Z -> Z -> bool) (uuid4 : nat -> string)
    (read_channel read_number : Z) (action : string) (c : ReadUntil.client) :
  let r := Wire._put_action Action_ok uuid4 read_channel read_number action c in
  let a k := mkAction (uuid4 (ReadUntil.uuids_drawn c))
                      read_channel read_number k in
  ReadUntil.data_queue (snd r) = ReadUntil.data_queue c
  /\ (Action_ok read_channel read_number = true ->
      action = "stop_further_data" ->
      fst r = Ok tt
      /\ ReadUntil.action_queue (snd r)
         = ReadUntil.action_queue c ++ [a StopFurtherData])
  /\ (Action_ok read_channel read_number = true ->
      action = "unblock" ->
      fst r = Ok tt
      /\ ReadUntil.action_queue (snd r)
         = ReadUntil.action_queue c ++ [a UnblockAction])
  /\ (Action_ok read_channel read_number = false
      \/ (action <> "stop_further_data" /\ action <> "unblock") ->
      fst r = Raise ValueError
      /\ ReadUntil.action_queue (snd r) = ReadUntil.action_queue c).
Proof.
  intros r a.
  assert (Hq : ReadUntil.data_queue (snd r) = ReadUntil.data_queue c).
  { unfold r, Wire._put_action.
    destruct (String.eqb action "stop_further_data");
      [|destruct (String.eqb action "unblock")];
      by destruct (Action_ok read_channel read_number). }
  split; [done|]. split_and!.
  - intros Hok ->. unfold r. rewrite wire_put_action_accepted by done.
    by destruct (put_action_spec uuid4 read_channel read_number
                   "stop_further_data" c) as (_ & _ & _ & _ & _ & Hs & _).
  - intros Hok ->. unfold r. rewrite wire_put_action_accepted by done.
    by destruct (put_action_spec uuid4 read_channel read_number
                   "unblock" c) as (_ & _ & _ & _ & _ & _ & Hu & _).
  - intros Hbad.
    destruct (wire_put_action_raises Action_ok uuid4 read_channel read_number
                action c Hbad) as (Hr & Hqueue & _).
    done.
Qed.

Lemma put_action_enqueues_or_raises_witness :
  let c := sample_client (ReadCache.mkState 2 [] 0 0) in
  (schema_action_ok 4 11 = true
   /\ fst (Wire._put_action schema_action_ok (fun _ => "id") 4 11 "unblock" c)
      = Ok tt
   /\ ReadUntil.action_queue
        (snd (Wire._put_action schema_action_ok (fun _ => "id") 4 11
                "unblock" c))
      = ReadUntil.action_queue c ++ [mkAction "id" 4 11 UnblockAction])
  /\ (schema_action_ok 4 (2 ^ 32) = false
      /\ fst (Wire._put_action schema_action_ok (fun _ => "id") 4 (2 ^ 32)
                "unblock" c)
         = Raise ValueError
      /\ ReadUntil.action_queue
           (snd (Wire._put_action schema_action_ok (fun _ => "id") 4 (2 ^ 32)
                   "unblock" c))
         = ReadUntil.action_queue c).
Proof.
  intros c. split.
  - split; [reflexivity|].
    apply (proj1 (proj2 (proj2
             (put_action_enqueues_or_raises schema_action_ok (fun _ => "id")
                4 11 "unblock" c)))); reflexivity.
  - split; [reflexivity|].
    apply (proj2 (proj2 (proj2
             (put_action_enqueues_or_raises schema_action_ok (fun _ => "id")
                4 (2 ^ 32) "unblock" c)))).
    left. reflexivity.
Defined.

(** X11: on a client whose cache has capacity at least one and
    satisfies the invariant, processing the chunks of one inbound message
    never raises and keeps the invariant and the capacity.  With the
    one-chunk policy on, the action queue gains one stop request per chunk,
    in the order of the chunks, whether or not the chunk passes the strand
    filter; with the policy off the queue is unchanged. *)
Theorem inbound_message_is_processed
    (uuid4 : nat -> string) (channels : list (Z * ReadData))
    (c : ReadUntil.client) :
  1 <= ReadCache.size (ReadUntil.data_queue c) ->
  cache_inv (ReadUntil.data_queue c) ->
  let c' := snd (ReadUntil.process_channels uuid4 channels c) in
  fst (ReadUntil.process_channels uuid4 channels c) = Ok tt
  /\ cache_inv (ReadUntil.data_queue c')
  /\ ReadCache.size (ReadUntil.data_queue c')
     = ReadCache.size (ReadUntil.data_queue c)
  /\ ReadUntil.action_queue c'
     = ReadUntil.action_queue c
       ++ (if ReadUntil.one_chunk c
           then stop_requests uuid4 (ReadUntil.uuids_drawn c) channels
           else []).
Proof.
  intros Hsz Hinv c'.
  destruct (process_channels_spec uuid4 channels c Hsz Hinv)
    as (Hr & Hi & Hs & Hq & _).
  split_and!; done.
Qed.

Lemma inbound_message_is_processed_witness :
  let channels := [(4, mkReadData "read-a" 11 0 [] [83]);
                   (5, mkReadData "read-b" 3 0 [] [77])] in
  let c' := snd (ReadUntil.process_channels (fun _ => "id") channels
                   scenario_client) in
  fst (ReadUntil.process_channels (fun _ => "id") channels scenario_client)
    = Ok tt
  /\ cache_inv (ReadUntil.data_queue c')
  /\ ReadCache.size (ReadUntil.data_queue c')
     = ReadCache.size (ReadUntil.data_queue scenario_client)
  /\ ReadUntil.action_queue c'
     = ReadUntil.action_queue scenario_client
       ++ (if ReadUntil.one_chunk scenario_client
           then stop_requests (fun _ => "id")
                  (ReadUntil.uuids_drawn scenario_client) channels
           else []).
Proof.
  intros channels.
  apply (inbound_message_is_processed (fun _ => "id") channels scenario_client).
  - simpl. lia.
  - split; [unfold ReadCache.__len__; simpl; lia | apply NoDup_nil_2].
Defined.

Section filter_batch.
Import ReadUntil.

Lemma filtered_channels_leave_cache uuid4 channels (c0 c : client) :
  strand_classes c = strand_classes c0 -> filter_strands c = true ->
  Forall (fun kv => strand_like c0 (snd kv) = false) channels ->
  fst (process_channels uuid4 channels c) = Ok tt
  /\ data_queue (snd (process_channels uuid4 channels c)) = data_queue c.
Proof.
  revert c. induction channels as [|[ch read] channels IH];
    intros c Hs Hf Hall; simpl; [done|].
  apply Forall_cons in Hall as [Hread Hall]. simpl in Hread.
  rewrite process_read_spec. cbv zeta.
  assert (Hl : strand_like c read = false).
  { unfold strand_like in *. by rewrite Hs. }
  rewrite Hf, Hl. simpl.
  set (c1 := if one_chunk c then _ else c).
  assert (Hc1 : strand_classes c1 = strand_classes c0
                /\ filter_strands c1 = true /\ data_queue c1 = data_queue c).
  { unfold c1. destruct (one_chunk c) eqn:E; simpl; split_and!; done. }
  destruct Hc1 as (Hs1 & Hf1 & Hq1).
  destruct (IH c1 Hs1 Hf1 Hall) as [Hr Hq]. by rewrite Hr, Hq.
Qed.

End filter_batch.

(** X12: with [filter_strands] on, an inbound message none of
    whose chunks is strand-like is processed without an exception and
    leaves the cache, counters included, exactly as it was. *)
Theorem filtered_message_leaves_cache
    (uuid4 : nat -> string) (channels : list (Z * ReadData))
    (c : ReadUntil.client) :
  ReadUntil.filter_strands c = true ->
  Forall (fun kv => ReadUntil.strand_like c (snd kv) = false) channels ->
  fst (ReadUntil.process_channels uuid4 channels c) = Ok tt
  /\ ReadUntil.data_queue (snd (ReadUntil.process_channels uuid4 channels c))
     = ReadUntil.data_queue c.
Proof. intros Hf Hall. by apply (filtered_channels_leave_cache uuid4 _ c c). Qed.

Lemma filtered_message_leaves_cache_witness :
  let channels := [(4, mkReadData "read-a" 11 0 [] [77]);
                   (5, mkReadData "read-b" 3 0 [] [77; 90])] in
  fst (ReadUntil.process_channels (fun _ => "id") channels scenario_client)
    = Ok tt
  /\ ReadUntil.data_queue
       (snd (ReadUntil.process_channels (fun _ => "id") channels
               scenario_client))
     = ReadUntil.data_queue scenario_client.
Proof.
  intros channels.
  apply (filtered_message_leaves_cache (fun _ => "id") channels scenario_client).
  - reflexivity.
  - repeat constructor; by vm_compute.
Defined.

(** X13: [get_read_chunks] returns normally, whatever [last] is:
    it gives the [min(batch_size, len)] newest entries of the cache, the
    newest first, removes them, and leaves the older entries, the counters
    and the action queue as they were. *)
Theorem get_read_chunks_returns_newest_first
    (batch_size : Z) (last : bool) (c : ReadUntil.client) :
  let n := Z.to_nat batch_size in
  let d := ReadCache.dict (ReadUntil.data_queue c) in
  let c' := snd (ReadUntil.get_read_chunks batch_size last c) in
  fst (ReadUntil.get_read_chunks batch_size last c)
    = Ok (reverse (drop (length d - n) d))
  /\ length (reverse (drop (length d - n) d)) = Nat.min n (length d)
  /\ ReadCache.dict (ReadUntil.data_queue c') = take (length d - n) d
  /\ ReadCache.missed (ReadUntil.data_queue c')
     = ReadCache.missed (ReadUntil.data_queue c)
  /\ ReadCache.replaced (ReadUntil.data_queue c')
     = ReadCache.replaced (ReadUntil.data_queue c)
  /\ ReadUntil.action_queue c' = ReadUntil.action_queue c.
Proof.
  intros n d c'. unfold c', ReadUntil.get_read_chunks, ReadCache.popitems.
  fold n d. rewrite popitems_loop_newest. simpl.
  rewrite take_reverse, drop_reverse, reverse_involutive.
  split_and!; try done.
  rewrite length_reverse, length_drop. lia.
Qed.

(** X14: when [uuid4] never returns the same identifier twice,
    after every sequence of [unblock_read], [stop_receiving_read],
    [_put_action], inbound messages and [get_read_chunks] on a newly built
    client, the requests in the action queue carry pairwise distinct
    action identifiers. *)
Theorem queued_action_ids_unique
    (uuid4 : nat -> string) (read_classes : gmap Z string) (cache_size : Z)
    (filter_strands one_chunk : bool) (ops : list client_op)
    (c0 : ReadUntil.client) :
  (forall m n, uuid4 m = uuid4 n -> m = n) ->
  ReadUntil.__init__ read_classes cache_size filter_strands one_chunk = Ok c0 ->
  NoDup (action_id <$> ReadUntil.action_queue (client_run uuid4 ops c0)).
Proof.
  intros Hinj Hinit.
  assert (H0 : ids_issued uuid4 c0).
  { unfold ReadUntil.__init__ in Hinit.
    destruct (ReadCache.__init__ cache_size); [|discriminate].
    injection Hinit as <-. split; simpl; [constructor | apply NoDup_nil_2]. }
  by destruct (client_run_ids uuid4 Hinj ops c0 H0).
Qed.

Lemma queued_action_ids_unique_witness :
  NoDup (action_id
         <$> ReadUntil.action_queue
               (client_run pretty
                  [UnblockRead 4 11; StopReceivingRead 5 3;
                   ProcessChannels [(4, mkReadData "read-a" 12 0 [] [83])]]
                  scenario_client)).
Proof.
  apply (queued_action_ids_unique pretty scenario_classes 2 true true).
  - intros m n H. by apply (inj pretty) in H.
  - reflexivity.
Defined.


(** * Further properties of the outbound runner *)

Section runner_more.
Import ReadUntil.

Lemma Qltb_true (x y : Q) : Qltb x y = true <-> (x < y)%Q.
Proof.
  unfold Qltb. rewrite negb_true_iff. split.
  - intros H. apply Qnot_le_lt. intros Hle%Qle_bool_iff. congruence.
  - intros H. apply not_true_is_false. intros Hle%Qle_bool_iff.
    by apply (Qlt_not_le _ _ H).
Qed.

Lemma Qltb_false (x y : Q) : Qltb x y = false <-> (y <= x)%Q.
Proof.
  unfold Qltb. rewrite negb_false_iff. apply Qle_bool_iff.
Qed.

Lemma yielded_app evs1 evs2 :
  yielded (evs1 ++ evs2) = yielded evs1 ++ yielded evs2.
Proof.
  induction evs1 as [|[req|lvl msg|d] evs1 IH]; simpl; [done|..];
    by rewrite ?IH.
Qed.


(** One pass of the loop body, as the events of [runner_loop] have it. *)
Lemma runner_loop_pass timeout_pt action_batch action_throttle t0 queue it env :
  Qltb t0 timeout_pt = true ->
  let queue1 := queue ++ arrivals it in
  let acts := take (Z.to_nat action_batch) queue1 in
  let rest := runner_loop timeout_pt action_batch action_throttle
                (t0_reading it) (drop (Z.to_nat action_batch) queue1) env in
  yielded (events (runner_loop timeout_pt action_batch action_throttle
                               t0 queue (it :: env)))
  = (if (0 <? length acts)%nat then [actions acts] else [])
    ++ yielded (events rest)
  /\ queue_left (runner_loop timeout_pt action_batch action_throttle
                             t0 queue (it :: env)) = queue_left rest
  /\ finished (runner_loop timeout_pt action_batch action_throttle
                           t0 queue (it :: env)) = finished rest.
Proof.
  intros Ht queue1 acts rest. simpl. rewrite Ht. simpl.
  fold queue1. fold acts. fold rest. split_and!; try done.
  rewrite !yielded_app.
  destruct (0 <? length acts)%nat;
    destruct (Qltb (t1_reading it) (t0_reading it + action_throttle)); done.
Qed.

Lemma runner_loop_stop timeout_pt action_batch action_throttle t0 queue env :
  Qltb t0 timeout_pt = false ->
  runner_loop timeout_pt action_batch action_throttle t0 queue env
  = {| events := [Log INFO StreamFinished];
       queue_left := queue; finished := true |}.
Proof. intros Ht. destruct env; simpl; by rewrite Ht. Qed.

Lemma runner_loop_conserves timeout_pt action_batch action_throttle
    t0 queue env :
  let r := runner_loop timeout_pt action_batch action_throttle t0 queue env in
  sent_actions (events r) ++ queue_left r
  = queue ++ concat (arrivals <$> take (passes timeout_pt t0 env) env).
Proof.
  revert t0 queue. induction env as [|it env IH]; intros t0 queue.
  - simpl. destruct (Qltb t0 timeout_pt); simpl; by rewrite app_nil_r.
  - destruct (Qltb t0 timeout_pt) eqn:Ht.
    + destruct (runner_loop_pass timeout_pt action_batch action_throttle
                  t0 queue it env Ht) as (Hy & Hq & _).
      cbv zeta. unfold sent_actions. rewrite Hy, Hq. simpl passes. rewrite Ht.
      simpl take. rewrite fmap_cons. simpl concat.
      rewrite fmap_app, concat_app, <- app_assoc.
      specialize (IH (t0_reading it)
                    (drop (Z.to_nat action_batch) (queue ++ arrivals it))).
      cbv zeta in IH. unfold sent_actions in IH. rewrite IH.
      assert (Hacts :
        concat (request_actions
                <$> (if (0 <? length (take (Z.to_nat action_batch)
                                        (queue ++ arrivals it)))%nat
                     then [actions (take (Z.to_nat action_batch)
                                         (queue ++ arrivals it))]
                     else []))
        = take (Z.to_nat action_batch) (queue ++ arrivals it)).
      { destruct (0 <? length (take (Z.to_nat action_batch)
                                 (queue ++ arrivals it)))%nat eqn:El; simpl.
        - by rewrite app_nil_r.
        - apply Nat.ltb_ge in El.
          by destruct (take (Z.to_nat action_batch) (queue ++ arrivals it));
            [|simpl in El; lia]. }
      rewrite Hacts, app_assoc, take_drop. by rewrite <- app_assoc.
    + rewrite runner_loop_stop by done. simpl. rewrite Ht. simpl.
      by rewrite app_nil_r.
Qed.

Lemma runner_loop_batches timeout_pt action_batch action_throttle
    t0 queue env :
  Forall (fun req => forall l, req = actions l ->
                       (0 < length l)%nat /\ Z.of_nat (length l) <= action_batch)
         (yielded (events (runner_loop timeout_pt action_batch action_throttle
                                       t0 queue env))).
Proof.
  revert t0 queue. induction env as [|it env IH]; intros t0 queue.
  - simpl. destruct (Qltb t0 timeout_pt); simpl; constructor.
  - destruct (Qltb t0 timeout_pt) eqn:Ht.
    + destruct (runner_loop_pass timeout_pt action_batch action_throttle
                  t0 queue it env Ht) as (Hy & _). cbv zeta in Hy.
      rewrite Hy. apply Forall_app. split; [|apply IH].
      destruct (0 <? length (take (Z.to_nat action_batch)
                               (queue ++ arrivals it)))%nat eqn:El;
        [|constructor].
      apply Forall_singleton. intros l [= <-].
      apply Nat.ltb_lt in El. split; [done|].
      rewrite length_take in *. lia.
    + rewrite runner_loop_stop by done. simpl. constructor.
Qed.

Lemma runner_loop_sleeps timeout_pt action_batch action_throttle
    t0 queue env d :
  Sleep d ∈ events (runner_loop timeout_pt action_batch action_throttle
                                t0 queue env) ->
  (0 < d)%Q.
Proof.
  revert t0 queue. induction env as [|it env IH]; intros t0 queue; simpl.
  - destruct (Qltb t0 timeout_pt); simpl.
    + by intros ?%elem_of_nil.
    + by intros [=]%list_elem_of_singleton.
  - destruct (Qltb t0 timeout_pt); simpl.
    + rewrite !elem_of_app. intros [H|[H|H]].
      * destruct (0 <? _)%nat; [|by apply elem_of_nil in H].
        apply elem_of_cons in H as [[=]|H].
        by apply list_elem_of_singleton in H.
      * destruct (Qltb (t1_reading it) (t0_reading it + action_throttle))
          eqn:E; [|by apply elem_of_nil in H].
        apply list_elem_of_singleton in H. injection H as ->.
        apply Qltb_true in E. lra.
      * by apply IH in H.
    + by intros [=]%list_elem_of_singleton.
Qed.


End runner_more.

Section runner_run.
Import ReadUntil.

Lemma runner_events run_time first_channel last_channel min_chunk_size
    action_batch action_throttle t_start t_init queue env :
  exists logs s,
    events (_runner run_time first_channel last_channel min_chunk_size
              action_batch action_throttle t_start t_init queue env)
    = logs ++ [Yield (setup s); Log INFO (RunningFor run_time)]
      ++ events (runner_loop (t_start + run_time) action_batch action_throttle
                             t_init queue env)
    /\ yielded logs = []
    /\ (forall d, Sleep d ∉ logs).
Proof.
  unfold _runner. simpl events.
  destruct (min_chunk_size >? ALLOWED_MIN_CHUNK_SIZE).
  - eexists [_; _], _. simpl. split_and!; try done.
    intros d H. apply elem_of_cons in H as [[=]|H].
    by apply list_elem_of_singleton in H.
  - eexists [_], _. simpl. split_and!; try done.
    intros d H. by apply list_elem_of_singleton in H.
Qed.

End runner_run.


(** X16: every Actions message that the runner yields carries at
    least one action and at most [action_batch] actions; with
    [action_batch <= 0] it yields no Actions message at all. *)
Theorem runner_batches_bounded
    (run_time : Q) (first_channel last_channel min_chunk_size action_batch : Z)
    (action_throttle t_start t_init : Q) (queue : list Action)
    (env : list ReadUntil.iteration) :
  let r := ReadUntil._runner run_time first_channel last_channel
             min_chunk_size action_batch action_throttle
             t_start t_init queue env in
  Forall (fun req => forall l, req = actions l ->
                       (0 < length l)%nat /\ Z.of_nat (length l) <= action_batch)
         (ReadUntil.yielded (ReadUntil.events r))
  /\ (action_batch <= 0 ->
      forall l, actions l ∉ ReadUntil.yielded (ReadUntil.events r)).
Proof.
  intros r.
  assert (H : Forall (fun req => forall l, req = actions l ->
                        (0 < length l)%nat
                        /\ Z.of_nat (length l) <= action_batch)
                     (ReadUntil.yielded (ReadUntil.events r))).
  { unfold r. rewrite runner_yields. constructor; [done|].
    apply runner_loop_batches. }
  split; [done|].
  intros Hb l Hin. rewrite Forall_forall in H.
  destruct (H _ Hin l eq_refl). lia.
Qed.

Lemma runner_batches_bounded_witness :
  actions [mkAction "a" 4 11 StopFurtherData]
  ∉ ReadUntil.yielded
      (ReadUntil.events
         (ReadUntil._runner 1 1 512 2000 0 (1 # 1000) 5 5
            [mkAction "a" 4 11 StopFurtherData]
            [ReadUntil.mkIteration 5 [] 5])).
Proof.
  apply (proj2 (runner_batches_bounded 1 1 512 2000 0 (1 # 1000) 5 5
                  [mkAction "a" 4 11 StopFurtherData]
                  [ReadUntil.mkIteration 5 [] 5])).
  lia.
Defined.

(** X17: the runner sleeps only for a positive time: every sleep
    it asks for has a duration above zero. *)
Theorem runner_sleeps_are_positive
    (run_time : Q) (first_channel last_channel min_chunk_size action_batch : Z)
    (action_throttle t_start t_init : Q) (queue : list Action)
    (env : list ReadUntil.iteration) (d : Q) :
  Sleep d ∈ ReadUntil.events
              (ReadUntil._runner run_time first_channel last_channel
                 min_chunk_size action_batch action_throttle
                 t_start t_init queue env) ->
  (0 < d)%Q.
Proof.
  destruct (runner_events run_time first_channel last_channel min_chunk_size
              action_batch action_throttle t_start t_init queue env)
    as (logs & s & -> & _ & Hs).
  rewrite !elem_of_app. intros [H|[H|H]].
  - by apply Hs in H.
  - apply elem_of_cons in H as [[=]|H].
    by apply list_elem_of_singleton in H.
  - by apply runner_loop_sleeps in H.
Qed.

Lemma runner_sleeps_are_positive_witness :
  Sleep ((1 # 1000) + 6 - 6)
    ∈ ReadUntil.events
        (ReadUntil._runner 1 1 512 2000 1000 (1 # 1000) 5 5 []
           [ReadUntil.mkIteration 6 [] 6])
  /\ (0 < (1 # 1000) + 6 - 6)%Q.
Proof.
  assert (H : Sleep ((1 # 1000) + 6 - 6)
                ∈ ReadUntil.events
                    (ReadUntil._runner 1 1 512 2000 1000 (1 # 1000) 5 5 []
                       [ReadUntil.mkIteration 6 [] 6])).
  { simpl. apply elem_of_cons. right. apply elem_of_cons. right.
    apply elem_of_cons. right. apply elem_of_cons. by left. }
  split; [exact H|].
  exact (runner_sleeps_are_positive 1 1 512 2000 1000 (1 # 1000) 5 5 []
           [ReadUntil.mkIteration 6 [] 6] _ H).
Defined.



(** The actions are sent once and in order also with the rounded
    deadline. *)
Lemma wire_runner_conserves (StreamSetup_ok : Z -> Z -> Z -> bool)
    (fadd : Q -> Q -> Q) run_time first_channel last_channel min_chunk_size
    action_batch action_throttle t_start t_init queue env :
  StreamSetup_ok first_channel last_channel (Z.min min_chunk_size 4000) = true ->
  let r := Wire._runner StreamSetup_ok fadd run_time first_channel last_channel
             min_chunk_size action_batch action_throttle
             t_start t_init queue env in
  sent_actions (Wire.events r) ++ Wire.queue_left r
  = queue
    ++ concat (ReadUntil.arrivals
               <$> take (passes (fadd t_start run_time) t_init env) env).
Proof.
  intros Hok.
  destruct (wire_runner_accepted StreamSetup_ok fadd run_time first_channel
              last_channel min_chunk_size action_batch action_throttle
              t_start t_init queue env Hok) as (_ & Hy & Hq & _).
  cbv zeta. unfold sent_actions. rewrite Hy, Hq. simpl.
  apply (runner_loop_conserves (fadd t_start run_time) action_batch
           action_throttle t_init queue env).
Qed.


(** * Properties of the inbound loop with its telemetry *)

Section process_reads_facts.
Import ProcessReads.
Variable uuid4 : nat -> string.

(** The loop body does to the client what [process_read] does, and to the
    sums what the source says. *)
Lemma channel_body_client acq ch read (c : ReadUntil.client) (t : telemetry) :
  exists t',
    channel_body uuid4 acq ch read c t
    = (lift_result (fst (ReadUntil.process_read uuid4 ch read c)),
       (snd (ReadUntil.process_read uuid4 ch read c), t'))
    /\ read_count t' = read_count t + 1
    /\ last_msg_time t' = last_msg_time t
    /\ response_counter t' = response_counter t.
Proof.
  unfold channel_body. rewrite process_read_spec. cbv zeta.
  unfold ReadUntil.stop_receiving_read, ReadUntil._put_action. simpl.
  destruct (ReadUntil.one_chunk c) eqn:Eo; simpl.
  - set (c1 := ReadUntil.mkClient _ _ true _ _ _ _ _).
    change (ReadUntil.strand_like c1 read) with (ReadUntil.strand_like c read).
    destruct (negb (ReadUntil.filter_strands c) || ReadUntil.strand_like c read).
    + destruct (ReadUntil.store ch read c1) as [[[]|e] c2]; simpl;
        eexists; split_and!; reflexivity.
    + eexists; split_and!; reflexivity.
  - destruct (negb (ReadUntil.filter_strands c) || ReadUntil.strand_like c read).
    + destruct (ReadUntil.store ch read c) as [[[]|e] c2]; simpl;
        eexists; split_and!; reflexivity.
    + eexists; split_and!; reflexivity.
Qed.

Lemma channels_loop_client acq chs (c : ReadUntil.client) (t : telemetry) :
  exists t',
    channels_loop uuid4 acq chs c t
    = (lift_result (fst (ReadUntil.process_channels uuid4 chs c)),
       (snd (ReadUntil.process_channels uuid4 chs c), t'))
    /\ (fst (ReadUntil.process_channels uuid4 chs c) = Ok tt ->
        read_count t' = read_count t + Z.of_nat (length chs))
    /\ last_msg_time t' = last_msg_time t
    /\ response_counter t' = response_counter t.
Proof.
  revert c t. induction chs as [|[ch read] chs IH]; intros c t.
  - exists t. simpl. split_and!; try done. intros _. lia.
  - simpl channels_loop. simpl ReadUntil.process_channels.
    destruct (channel_body_client acq ch read c t) as (t1 & -> & Hc1 & Hl1 & Hr1).
    destruct (ReadUntil.process_read uuid4 ch read c) as [[[]|e] c1]; simpl.
    + destruct (IH c1 t1) as (t' & -> & Hc & Hl & Hr).
      exists t'. split_and!; try congruence.
      intros Hok. rewrite (Hc Hok), Hc1. simpl length. lia.
    + exists t1. split_and!; try done.
Qed.

Lemma count_responses_lookup (resps : list ActionResponse)
    (counter : gmap Z Z) (k : Z) :
  default 0 (fold_left count_response resps counter !! k)
  = default 0 (counter !! k)
    + Z.of_nat (length (filter (fun r => response r = k) resps)).
Proof.
  revert counter. induction resps as [|r resps IH]; intros counter; simpl.
  - lia.
  - rewrite IH. unfold count_response.
    destruct (decide (response r = k)) as [<-|Hne].
    + rewrite lookup_insert_eq, filter_cons_True by done. simpl. lia.
    + rewrite lookup_insert_ne, filter_cons_False by done. lia.
Qed.

End process_reads_facts.

Section message_facts.
Import ProcessReads.
Variable uuid4 : nat -> string.

(** One inbound message on a client whose cache is valid: the chunks are
    processed as [process_channels] does, and then the report is due or
    not. *)
Lemma message_body_spec (m : reads_chunk) (c : ReadUntil.client)
    (t : telemetry) :
  1 <= ReadCache.size (ReadUntil.data_queue c) ->
  cache_inv (ReadUntil.data_queue c) ->
  let c' := snd (ReadUntil.process_channels uuid4 (channels m) c) in
  exists t1,
    read_count t1 = read_count t + Z.of_nat (length (channels m))
    /\ last_msg_time t1 = last_msg_time t
    /\ response_counter t1
       = fold_left count_response (action_reponses m) (response_counter t)
    /\ message_body uuid4 m c t
       = if Qltb (last_msg_time t + 1) (now m) then
           match interval_report c' t1 with
           | None => (Failed ZeroDivisionError, (c', t1), [])
           | Some report =>
               (Done,
                (c', mkTelemetry (response_counter t1) (unique_reads t1)
                       0 0 0 (now m)),
                [report])
           end
         else (Done, (c', t1), []).
Proof.
  intros Hsz Hinv c'. unfold message_body.
  set (t0 := mkTelemetry _ (unique_reads t) _ _ _ _).
  destruct (channels_loop_client uuid4 (acquired m) (channels m) c t0)
    as (t1 & -> & Hc & Hl & Hr).
  destruct (process_channels_spec uuid4 (channels m) c Hsz Hinv) as (Hok & _).
  rewrite Hok. simpl. exists t1. fold c'. rewrite Hl. simpl.
  split_and!; try done. by apply Hc.
Qed.



End message_facts.

(** X19: an interval report that is due when no chunk was counted
    since the last one raises ZeroDivisionError, before anything is logged
    or reset.  So a message without chunks, handled more than one second
    after the last report while the chunk count is zero, ends the inbound
    loop; in particular a first message without chunks, handled more than
    one second after [_process_reads] started. *)
Theorem report_without_chunks_raises
    (uuid4 : nat -> string) (m : ProcessReads.reads_chunk)
    (c : ReadUntil.client) :
  ProcessReads.channels m = [] ->
  (forall t,
     ProcessReads.read_count t = 0 ->
     (ProcessReads.last_msg_time t + 1 < ProcessReads.now m)%Q ->
     exists t',
       ProcessReads.message_body uuid4 m c t
       = (ProcessReads.Failed ProcessReads.ZeroDivisionError, (c, t'), []))
  /\ (forall t_start rest,
        (t_start + 1 < ProcessReads.now m)%Q ->
        exists t',
          ProcessReads._process_reads uuid4 t_start (m :: rest) c
          = (ProcessReads.Failed ProcessReads.ZeroDivisionError, (c, t'), [])).
Proof.
  intros Hch.
  assert (Hbody : forall t,
            ProcessReads.read_count t = 0 ->
            (ProcessReads.last_msg_time t + 1 < ProcessReads.now m)%Q ->
            exists t',
              ProcessReads.message_body uuid4 m c t
              = (ProcessReads.Failed ProcessReads.ZeroDivisionError,
                 (c, t'), [])).
  { intros t Hrc Hlate%Qltb_true.
    unfold ProcessReads.message_body. rewrite Hch. simpl.
    rewrite Hlate. unfold ProcessReads.interval_report. simpl.
    rewrite Hrc. simpl. by eexists. }
  split; [done|].
  intros t_start rest Hlate. unfold ProcessReads._process_reads. simpl.
  destruct (Hbody (ProcessReads.mkTelemetry ∅ ∅ 0 0 0 t_start) eq_refl Hlate)
    as (t' & ->).
  by eexists.
Qed.

Lemma report_without_chunks_raises_witness :
  let m := ProcessReads.mkReadsChunk
             [ProcessReads.mkActionResponse "a" 0] [] 100 7 in
  exists t',
    ProcessReads._process_reads (fun _ => "id") 5 [m] scenario_client
    = (ProcessReads.Failed ProcessReads.ZeroDivisionError,
       (scenario_client, t'), []).
Proof.
  intros m.
  apply (proj2 (report_without_chunks_raises (fun _ => "id") m scenario_client
                  eq_refl) 5%Q []).
  reflexivity.
Defined.



(** X21: for one inbound message on a client with a valid cache.
    When the report is not due (the clock is at most one second past the
    last report) the message is handled without a report, the chunk count
    grows by the number of chunks of the message and the time of the last
    report stays.  When the report is due and the chunk count, including
    this message, is not zero, exactly one report is emitted: it carries
    that count and the queue length and counters of the cache after the
    message, and afterwards the chunk count, the samples-behind sum and the
    byte sum are zero and the time of the last report is the clock
    reading. *)
Theorem interval_report_counts_and_resets
    (uuid4 : nat -> string) (m : ProcessReads.reads_chunk)
    (c : ReadUntil.client) (t : ProcessReads.telemetry) :
  1 <= ReadCache.size (ReadUntil.data_queue c) ->
  cache_inv (ReadUntil.data_queue c) ->
  let c' := snd (ReadUntil.process_channels uuid4 (ProcessReads.channels m) c) in
  let n := ProcessReads.read_count t
           + Z.of_nat (length (ProcessReads.channels m)) in
  ((ProcessReads.now m <= ProcessReads.last_msg_time t + 1)%Q ->
   exists t',
     ProcessReads.message_body uuid4 m c t = (ProcessReads.Done, (c', t'), [])
     /\ ProcessReads.read_count t' = n
     /\ ProcessReads.last_msg_time t' = ProcessReads.last_msg_time t)
  /\ ((ProcessReads.last_msg_time t + 1 < ProcessReads.now m)%Q -> n <> 0 ->
      exists t' report,
        ProcessReads.message_body uuid4 m c t
        = (ProcessReads.Done, (c', t'), [report])
        /\ ProcessReads.read_sections report = n
        /\ ProcessReads.reads_in_queue report = ReadUntil.queue_length c'
        /\ ProcessReads.reads_missed report = ReadUntil.missed_reads c'
        /\ ProcessReads.chunks_replaced report = ReadUntil.missed_chunks c'
        /\ ProcessReads.read_count t' = 0
        /\ ProcessReads.samples_behind t' = 0
        /\ ProcessReads.raw_data_bytes t' = 0
        /\ ProcessReads.last_msg_time t' = ProcessReads.now m).
Proof.
  intros Hsz Hinv c' n.
  destruct (message_body_spec uuid4 m c t Hsz Hinv)
    as (t1 & Hc & Hl & _ & ->). fold c'.
  split.
  - intros Hnot%Qltb_false. rewrite Hnot. exists t1. split_and!; done.
  - intros Hdue%Qltb_true Hn. rewrite Hdue.
    unfold ProcessReads.interval_report.
    destruct (Z.eqb_spec (ProcessReads.read_count t1) 0) as [H0|_];
      [unfold n in Hn; congruence|].
    eexists _, _. split; [reflexivity|]. simpl. split_and!; done.
Qed.

Lemma interval_report_counts_and_resets_witness :
  let m := ProcessReads.mkReadsChunk []
             [(4, mkReadData "read-a" 11 90 [] [83])] 100 7 in
  let t := ProcessReads.mkTelemetry ∅ ∅ 0 0 0 5 in
  exists t' report,
    ProcessReads.message_body (fun _ => "id") m scenario_client t
    = (ProcessReads.Done,
       (snd (ReadUntil.process_channels (fun _ => "id")
               (ProcessReads.channels m) scenario_client), t'), [report])
    /\ ProcessReads.read_sections report = 1.
Proof.
  intros m t.
  assert (H1 : 1 <= ReadCache.size (ReadUntil.data_queue scenario_client))
    by (simpl; lia).
  assert (H2 : cache_inv (ReadUntil.data_queue scenario_client)).
  { split; [unfold ReadCache.__len__; simpl; lia | apply NoDup_nil_2]. }
  destruct (proj2 (interval_report_counts_and_resets (fun _ => "id") m
                     scenario_client t H1 H2))
    as (t' & report & He & Hn & _).
  - reflexivity.
  - simpl. lia.
  - exists t', report. split; [exact He | exact Hn].
Defined.

(** X22: the response counter counts per outcome code: after a
    message that is handled without an exception, the count of every code
    has grown by the number of action responses of the message that carry
    that code. *)
Theorem responses_counted_per_code
    (uuid4 : nat -> string) (m : ProcessReads.reads_chunk)
    (c c' : ReadUntil.client) (t t' : ProcessReads.telemetry)
    (reports : list ProcessReads.interval_update) (code : Z) :
  1 <= ReadCache.size (ReadUntil.data_queue c) ->
  cache_inv (ReadUntil.data_queue c) ->
  ProcessReads.message_body uuid4 m c t
    = (ProcessReads.Done, (c', t'), reports) ->
  default 0 (ProcessReads.response_counter t' !! code)
  = default 0 (ProcessReads.response_counter t !! code)
    + Z.of_nat (length (filter (fun r => ProcessReads.response r = code)
                               (ProcessReads.action_reponses m))).
Proof.
  intros Hsz Hinv.
  destruct (message_body_spec uuid4 m c t Hsz Hinv)
    as (t1 & _ & _ & Hr & ->).
  rewrite <- count_responses_lookup, <- Hr.
  destruct (Qltb _ _).
  - destruct (ProcessReads.interval_report _ t1); [|discriminate].
    by intros [= _ <- _].
  - by intros [= _ <- _].
Qed.

Lemma responses_counted_per_code_witness :
  let m := ProcessReads.mkReadsChunk
             [ProcessReads.mkActionResponse "a" 0;
              ProcessReads.mkActionResponse "b" 2;
              ProcessReads.mkActionResponse "c" 0] [] 100 5 in
  let t := ProcessReads.mkTelemetry ∅ ∅ 0 0 0 5 in
  default 0 (ProcessReads.response_counter
               (snd (snd (fst (ProcessReads.message_body (fun _ => "id") m
                                 scenario_client t)))) !! 0)
  = default 0 (ProcessReads.response_counter t !! 0)
    + Z.of_nat (length (filter (fun r => ProcessReads.response r = 0)
                               (ProcessReads.action_reponses m))).
Proof.
  intros m t.
  apply (responses_counted_per_code (fun _ => "id") m scenario_client
           scenario_client t _ []).
  - simpl. lia.
  - split; [unfold ReadCache.__len__; simpl; lia | apply NoDup_nil_2].
  - reflexivity.
Defined.


(** * Properties of the test server's bookkeeping *)

Section dict_update_facts.
Context {V : Type}.
Implicit Types (d : OrderedDict.t V) (key : Z) (value : V).

Lemma getitem_setitem_eq key value d :
  OrderedDict.getitem key (OrderedDict.setitem key value d) = Some value.
Proof.
  induction d as [|[k v] d IH]; simpl.
  - by rewrite Z.eqb_refl.
  - destruct (Z.eqb_spec k key) as [->|Hne]; simpl.
    + by rewrite Z.eqb_refl.
    + by destruct (Z.eqb_spec k key).
Qed.

Lemma getitem_setitem_ne key k value d :
  k <> key ->
  OrderedDict.getitem k (OrderedDict.setitem key value d)
  = OrderedDict.getitem k d.
Proof.
  intros Hne. induction d as [|[k' v] d IH]; simpl.
  - by destruct (Z.eqb_spec key k).
  - destruct (Z.eqb_spec k' key) as [->|Hne']; simpl.
    + by destruct (Z.eqb_spec key k).
    + by rewrite IH.
Qed.

Lemma keys_setitem key value d :
  OrderedDict.keys (OrderedDict.setitem key value d)
  = if OrderedDict.contains key d then OrderedDict.keys d
    else OrderedDict.keys d ++ [key].
Proof.
  unfold OrderedDict.keys, OrderedDict.contains.
  induction d as [|[k v] d IH]; [done|].
  cbn [OrderedDict.setitem existsb fst]. rewrite fmap_cons.
  destruct (k =? key); cbn [orb fst]; rewrite fmap_cons; [done|].
  rewrite IH. by destruct (existsb _ d).
Qed.

Lemma contains_getitem key d :
  OrderedDict.contains key d = false -> OrderedDict.getitem key d = None.
Proof. intros H%contains_false. by apply getitem_absent. Qed.

End dict_update_facts.

(** X23: [_add_channel_data] appends the new item, with its clock
    reading, at the end of the list of its channel (an empty list when the
    channel is new), leaves the lists of all other channels alone, keeps
    the channels in their order and puts a new channel last. *)
Theorem add_channel_data_appends
    (channel k : Z) (d : DataService.item_data) (now : Q)
    (channel_data : OrderedDict.t (list DataService.ChannelDataItem)) :
  let channel_data' :=
    DataService._add_channel_data channel d now channel_data in
  OrderedDict.getitem channel channel_data'
  = Some (default [] (OrderedDict.getitem channel channel_data)
          ++ [DataService.mkChannelDataItem now d])
  /\ (k <> channel ->
      OrderedDict.getitem k channel_data' = OrderedDict.getitem k channel_data)
  /\ OrderedDict.keys channel_data'
     = if OrderedDict.contains channel channel_data
       then OrderedDict.keys channel_data
       else OrderedDict.keys channel_data ++ [channel].
Proof.
  unfold DataService._add_channel_data.
  destruct (OrderedDict.contains channel channel_data) eqn:Hc.
  - apply contains_true in Hc.
    destruct (getitem_resident channel channel_data Hc) as [items Hg].
    rewrite Hg. simpl. split_and!.
    + apply getitem_setitem_eq.
    + intros Hne. by apply getitem_setitem_ne.
    + rewrite keys_setitem.
      by rewrite (proj2 (contains_true channel channel_data) Hc).
  - rewrite getitem_setitem_eq, (contains_getitem _ _ Hc). simpl. split_and!.
    + apply getitem_setitem_eq.
    + intros Hne. by rewrite !getitem_setitem_ne.
    + rewrite !keys_setitem, Hc.
      assert (Hin : OrderedDict.contains channel
                      (OrderedDict.setitem channel [] channel_data) = true).
      { apply contains_true. rewrite keys_setitem, Hc. apply elem_of_app.
        right. by apply list_elem_of_singleton. }
      by rewrite Hin.
Qed.

Lemma add_channel_data_appends_witness :
  let d := DataService.mkItemData false "read-c" 3 in
  OrderedDict.getitem 4
    (DataService._add_channel_data 5 d 12 sample_channel_data)
  = OrderedDict.getitem 4 sample_channel_data.
Proof.
  intros d.
  apply (proj1 (proj2 (add_channel_data_appends 5 4 d 12 sample_channel_data))).
  lia.
Defined.

Section response_time_facts.
Import DataService.

Lemma pair_induction {A : Type} (P : list A -> Prop) :
  P [] -> (forall x, P [x]) -> (forall x y l, P l -> P (x :: y :: l)) ->
  forall l, P l.
Proof.
  intros H0 H1 H2 l.
  assert (H : P l /\ forall x, P (x :: l)).
  { induction l as [|y l [IH1 IH2]]; [by split|].
    split; [apply IH2|]. intros x. by apply H2. }
  apply H.
Qed.

(** Handling the items one by one, with [start_item] toggling, is
    handling them pair by pair. *)
Lemma items_loop_pairs items rts rt :
  items_loop items None rts rt = pairs_loop (pair_up items) rts rt.
Proof.
  revert rts rt. induction items as [|x|s r items IH] using pair_induction;
    intros rts rt; simpl; [done|done|].
  destruct (is_read_data (data s)); simpl.
  - destruct (matched s r); [|apply IH].
    destruct (Qltb 0 (time r - time s)); [apply IH|done].
  - apply IH.
Qed.

Lemma pair_up_length items :
  length (pair_up items) = (length items / 2)%nat.
Proof.
  induction items as [|x|s r items IH] using pair_induction; [done..|].
  cbn [pair_up length]. rewrite IH.
  replace (S (S (length items))) with (1 * 2 + length items)%nat by lia.
  by rewrite Nat.div_add_l.
Qed.

Lemma pairs_loop_length pairs rts rt rts' rt' :
  pairs_loop pairs rts rt = Some (rts', rt') ->
  length rts' = (length rts + length pairs)%nat.
Proof.
  revert rts rt. induction pairs as [|[s r] pairs IH]; intros rts rt; simpl.
  - intros [= <- _]. lia.
  - destruct (is_read_data (data s) && matched s r).
    + destruct (Qltb 0 (time r - time s)); [|done].
      intros H%IH. rewrite length_app in H. simpl in H. lia.
    + intros H%IH. rewrite length_app in H. simpl in H. lia.
Qed.

Lemma pairs_loop_nonneg pairs rts rt rts' rt' :
  Forall (fun x => (0 <= x)%Q) rts -> (0 <= rt)%Q ->
  pairs_loop pairs rts rt = Some (rts', rt') ->
  Forall (fun x => (0 <= x)%Q) rts' /\ (0 <= rt')%Q.
Proof.
  revert rts rt. induction pairs as [|[s r] pairs IH]; intros rts rt Hall Hrt;
    simpl.
  - by intros [= <- <-].
  - destruct (is_read_data (data s) && matched s r).
    + destruct (Qltb 0 (time r - time s)) eqn:E; [|done].
      apply Qltb_true, Qlt_le_weak in E. apply IH; [|done].
      apply Forall_app. split; [done|]. by apply Forall_singleton.
    + apply IH; [|done].
      apply Forall_app. split; [done|]. by apply Forall_singleton.
Qed.

Lemma pairs_loop_None pairs rts rt :
  pairs_loop pairs rts rt = None <-> Exists failing_pair pairs.
Proof.
  revert rts rt. induction pairs as [|[s r] pairs IH]; intros rts rt; simpl.
  - split; [done|]. by intros ?%Exists_nil.
  - rewrite Exists_cons. unfold failing_pair at 1. simpl.
    destruct (is_read_data (data s)); simpl.
    + destruct (matched s r).
      * destruct (Qltb 0 (time r - time s)) eqn:E.
        -- rewrite IH. apply Qltb_true in E. split; [tauto|].
           intros [(_ & _ & H)|H]; [lra|done].
        -- apply Qltb_false in E. split; [|done]. intros _. left.
           split_and!; try done. lra.
      * rewrite IH. split; [tauto|]. by intros [(_ & ? & _)|H].
    + rewrite IH. split; [tauto|]. by intros [(? & _)|H].
Qed.

Lemma pairs_loop_answered pairs rts rt :
  Forall answered_pair pairs ->
  exists rt',
    pairs_loop pairs rts rt
    = Some (rts ++ ((fun p => (time (snd p) - time (fst p))%Q) <$> pairs), rt').
Proof.
  revert rts rt. induction pairs as [|[s r] pairs IH]; intros rts rt Hall;
    simpl.
  - exists rt. by rewrite app_nil_r.
  - apply Forall_cons in Hall as [(Hr & Hm & Ht) Hall]. simpl in *.
    rewrite Hr, Hm. simpl.
    assert (E : Qltb 0 (time r - time s) = true) by (apply Qltb_true; lra).
    rewrite E.
    destruct (IH (rts ++ [(time r - time s)%Q]) (time r - time s)%Q Hall)
      as [rt' ->].
    exists rt'. by rewrite <- app_assoc.
Qed.

Lemma channels_loop_length cd rts rt l :
  channels_loop cd rts rt = Returned l ->
  length l
  = (length rts + sum_list ((fun kv => length (snd kv) / 2) <$> cd))%nat.
Proof.
  revert rts rt. induction cd as [|[ch items] cd IH]; intros rts rt;
    cbn -[Nat.div].
  - intros [= <-]. lia.
  - rewrite items_loop_pairs.
    destruct (pairs_loop (pair_up items) rts rt) as [[rts' rt']|] eqn:E;
      [|done].
    intros H%IH. apply pairs_loop_length in E.
    rewrite pair_up_length in E. lia.
Qed.

Lemma channels_loop_nonneg cd rts rt l :
  Forall (fun x => (0 <= x)%Q) rts -> (0 <= rt)%Q ->
  channels_loop cd rts rt = Returned l ->
  Forall (fun x => (0 <= x)%Q) l.
Proof.
  revert rts rt. induction cd as [|[ch items] cd IH]; intros rts rt Hall Hrt;
    simpl.
  - by intros [= <-].
  - rewrite items_loop_pairs.
    destruct (pairs_loop (pair_up items) rts rt) as [[rts' rt']|] eqn:E;
      [|done].
    destruct (pairs_loop_nonneg _ _ _ _ _ Hall Hrt E). by apply IH.
Qed.

Lemma channels_loop_asserts cd rts rt :
  channels_loop cd rts rt = AssertionError
  <-> Exists (fun kv => Exists failing_pair (pair_up (snd kv))) cd.
Proof.
  revert rts rt. induction cd as [|[ch items] cd IH]; intros rts rt; simpl.
  - split; [done|]. by intros ?%Exists_nil.
  - rewrite items_loop_pairs, Exists_cons. simpl.
    destruct (pairs_loop (pair_up items) rts rt) as [[rts' rt']|] eqn:E.
    + rewrite IH. split; [tauto|]. intros [H|H]; [|done].
      apply (pairs_loop_None _ rts rt) in H. congruence.
    + split; [|done]. intros _. left. by apply (pairs_loop_None _ rts rt).
Qed.

Lemma channels_loop_answered cd rts rt :
  Forall (fun kv => Forall answered_pair (pair_up (snd kv))) cd ->
  channels_loop cd rts rt
  = Returned
      (rts ++ concat ((fun kv =>
                         (fun p => (time (snd p) - time (fst p))%Q)
                         <$> pair_up (snd kv)) <$> cd)).
Proof.
  revert rts rt. induction cd as [|[ch items] cd IH]; intros rts rt Hall;
    simpl.
  - by rewrite app_nil_r.
  - apply Forall_cons in Hall as [Hitems Hall]. simpl in Hitems.
    rewrite items_loop_pairs.
    destruct (pairs_loop_answered _ rts rt Hitems) as [rt' ->].
    rewrite IH by done. by rewrite <- app_assoc.
Qed.

End response_time_facts.

(** X24: when [find_response_times] returns, it returns one
    response time per pair of items of each channel: as many as the sum,
    over the channels, of half the number of items (rounded down). *)
Theorem response_times_one_per_pair
    (channel_data : OrderedDict.t (list DataService.ChannelDataItem))
    (response_times : list Q) :
  DataService.find_response_times channel_data
    = DataService.Returned response_times ->
  length response_times
  = sum_list ((fun kv => length (snd kv) / 2)%nat <$> channel_data).
Proof.
  unfold DataService.find_response_times. intros H.
  by apply channels_loop_length in H.
Qed.

Lemma response_times_one_per_pair_witness :
  length [2; 1 # 2]%Q
  = sum_list ((fun kv => length (snd kv) / 2)%nat <$> sample_channel_data).
Proof.
  apply (response_times_one_per_pair sample_channel_data [2; 1 # 2]%Q).
  reflexivity.
Defined.

(** X25: [find_response_times] never returns a negative response
    time. *)
Theorem response_times_not_negative
    (channel_data : OrderedDict.t (list DataService.ChannelDataItem))
    (response_times : list Q) :
  DataService.find_response_times channel_data
    = DataService.Returned response_times ->
  Forall (fun x => (0 <= x)%Q) response_times.
Proof.
  unfold DataService.find_response_times. intros H.
  apply (channels_loop_nonneg _ [] 0%Q _ (Forall_nil_2 _)) in H; [done|].
  apply Qle_refl.
Qed.

Lemma response_times_not_negative_witness :
  Forall (fun x => (0 <= x)%Q) [2; 1 # 2]%Q.
Proof.
  apply (response_times_not_negative sample_channel_data [2; 1 # 2]%Q).
  reflexivity.
Defined.

(** X26: [find_response_times] fails its assertion exactly when
    some channel has a pair of items whose first is a read, whose second
    matches it by read id or read number, and whose second was recorded no
    later than the first. *)
Theorem response_times_assertion_iff
    (channel_data : OrderedDict.t (list DataService.ChannelDataItem)) :
  DataService.find_response_times channel_data = DataService.AssertionError
  <-> Exists (fun kv => Exists DataService.failing_pair
                               (DataService.pair_up (snd kv)))
             channel_data.
Proof. apply channels_loop_asserts. Qed.

(** X27: when every pair of items of every channel is a read
    followed by a matching item recorded later, [find_response_times]
    returns, channel by channel and pair by pair, the time between the two
    items of the pair. *)
Theorem response_times_of_answered_reads
    (channel_data : OrderedDict.t (list DataService.ChannelDataItem)) :
  Forall (fun kv => Forall DataService.answered_pair
                           (DataService.pair_up (snd kv)))
         channel_data ->
  DataService.find_response_times channel_data
  = DataService.Returned
      (concat ((fun kv =>
                  (fun p => (DataService.time (snd p)
                             - DataService.time (fst p))%Q)
                  <$> DataService.pair_up (snd kv)) <$> channel_data)).
Proof.
  intros H. unfold DataService.find_response_times.
  by rewrite (channels_loop_answered _ [] 0%Q H).
Qed.

Lemma response_times_of_answered_reads_witness :
  DataService.find_response_times sample_channel_data
  = DataService.Returned
      (concat ((fun kv =>
                  (fun p => (DataService.time (snd p)
                             - DataService.time (fst p))%Q)
                  <$> DataService.pair_up (snd kv)) <$> sample_channel_data)).
Proof.
  apply (response_times_of_answered_reads sample_channel_data).
  repeat constructor.
Defined.
